(** * spotlysis: the authenticated Spotify connection

    A shallow embedding of [src/classes/SpotifyConnection.ts]: the token
    life cycle ([tryRefresh], [get], [establish], [reestablish]) and the
    bulk audio-feature fetch ([fetchAudioFeatures]) with its bucket
    arithmetic, followed by the [Paged] container, whose source file
    ([classes/Paged]) is only imported by the connection. *)

From Stdlib Require Import List String Ascii ZArith Arith Bool Lia.
Import ListNotations.
Open Scope string_scope.
Set Warnings "-register-all".

(* ===================================================================== *)
(** ** JavaScript values *)
(* ===================================================================== *)

(** Response bodies are untyped at run time (the type arguments of
    [get<T>] are erased), so they are kept as JSON values. *)
Inductive JsVal : Type :=
| JsUndefined
| JsNull
| JsBool (b : bool)
| JsNum (n : Z)
| JsStr (s : string)
| JsArr (elems : list JsVal)
| JsObj (fields : list (string * JsVal)).

(** Values that the code throws, or that a promise is rejected with. *)
Inductive Thrown : Type :=
| AxiosError (response : option (Z * JsVal))
    (* [isAxiosError]; [response] is undefined when nothing came back *)
| ThrownResponse (status : Z) (data : JsVal)   (* [throw response] *)
| ThrownStatus (status : Z)                    (* [throw status] *)
| TypeError.                                   (* property read of undefined/null *)

(** Own-property lookup in an object literal / parsed JSON object. *)
Fixpoint obj_get {V : Type} (k : string) (fields : list (string * V)) : option V :=
  match fields with
  | [] => None
  | (k', v) :: rest => if String.eqb k k' then Some v else obj_get k rest
  end.

(** [{...obj, k: v}]: the key is overwritten in place or added last. *)
Fixpoint obj_set {V : Type} (k : string) (v : V) (fields : list (string * V))
  : list (string * V) :=
  match fields with
  | [] => [(k, v)]
  | (k', v') :: rest =>
      if String.eqb k k' then (k, v) :: rest else (k', v') :: obj_set k v rest
  end.

(** [v.k] for a key that no prototype defines ([access_token],
    [audio_features]): a [TypeError] on undefined and null, the own field of
    an object, [undefined] everywhere else. *)
Definition js_prop (v : JsVal) (k : string) : Thrown + JsVal :=
  match v with
  | JsUndefined | JsNull => inl TypeError
  | JsObj fields =>
      match obj_get k fields with Some x => inr x | None => inr JsUndefined end
  | _ => inr JsUndefined
  end.

(** [Array.prototype.flat()] with its default depth 1. *)
Definition flat (vs : list JsVal) : list JsVal :=
  flat_map (fun v => match v with JsArr elems => elems | _ => [v] end) vs.

(* ===================================================================== *)
(** ** Requests, replies and the observable trace *)
(* ===================================================================== *)

Inductive HeaderValue : Type :=
| Bearer (token : JsVal)      (* the template literal `Bearer ${token}` *)
| HeaderText (s : string).

(** The fields of [AxiosRequestConfig] that the connection touches. *)
Record FetchConfig : Type := mkConfig {
  url : option string;
  method : option string;
  headers : list (string * HeaderValue);
  params : list (string * JsVal)
}.

Definition MethodConfig : Type := FetchConfig.

Definition emptyConfig : FetchConfig :=
  {| url := None; method := None; headers := []; params := [] |}.

Record FetchResult : Type := mkResult {
  data : JsVal;
  status : Z
}.

(** What comes back for a request: an HTTP response, or nothing (a
    transport failure). *)
Inductive AxiosReply : Type :=
| HttpReply (status : Z) (data : JsVal)
| NoReply.

Inductive Event : Type :=
| Exchange (request : FetchConfig) (reply : AxiosReply)
| AccessTokenChange (newToken : JsVal)     (* [onAccessTokenChange(newToken)] *)
| GettingUserProfile (profile : JsVal).    (* [onGettingUserProfile(profile)] *)

(** The remote side: its answer may depend on everything seen so far. *)
Definition Remote : Type := list Event -> FetchConfig -> AxiosReply.

(** A callback supplied by the caller, by what a call of it does: it returns
    ([None]) or it throws ([Some e]). *)
Definition Callback : Type := JsVal -> option Thrown.

(** The default of [EstablishOptions], [() => undefined]. *)
Definition returns : Callback := fun _ => None.

(** A connection object, with the callback it was constructed with, together
    with the trace of what it did.  Every call of a callback of
    [EstablishOptions] appends an event to the trace. *)
Record World : Type := mkWorld {
  _accessToken : JsVal;
  refreshToken : string;
  onAccessTokenChange : Callback;
  trace : list Event
}.

(* ===================================================================== *)
(** ** Control flow: completions, promises, [async]/[await], [try]/[catch] *)
(* ===================================================================== *)

Inductive Completion (A : Type) : Type :=
| Normal (a : A)
| Throw (e : Thrown).
Arguments Normal {A} a.
Arguments Throw {A} e.

(** A promise, by the way it settles. *)
Inductive Promise (A : Type) : Type :=
| Fulfilled (a : A)
| Rejected (e : Thrown).
Arguments Fulfilled {A} a.
Arguments Rejected {A} e.

Definition M (A : Type) : Type := World -> Completion A * World.

Definition ret {A : Type} (a : A) : M A := fun w => (Normal a, w).

Definition throw {A : Type} (e : Thrown) : M A := fun w => (Throw e, w).

Definition bind {A B : Type} (m : M A) (k : A -> M B) : M B :=
  fun w =>
    match m w with
    | (Normal a, w') => k a w'
    | (Throw e, w') => (Throw e, w')
    end.

Declare Scope js_scope.
Delimit Scope js_scope with js.
Notation "x <- m ;; k" := (bind m (fun x => k))
  (at level 61, m at next level, right associativity) : js_scope.
Notation "m ;;; k" := (bind m (fun _ => k))
  (at level 61, right associativity) : js_scope.
Open Scope js_scope.

(** [try { body } catch (error) { handler }]: the handler runs only when
    the evaluation of [body] itself throws. *)
Definition try_catch {A : Type} (body : M A) (handler : Thrown -> M A) : M A :=
  fun w =>
    match body w with
    | (Normal a, w') => (Normal a, w')
    | (Throw e, w') => handler e w'
    end.

(** [await p] *)
Definition await {A : Type} (p : Promise A) : M A :=
  match p with
  | Fulfilled a => ret a
  | Rejected e => throw e
  end.

(** Calling [async f(...) { body }] where the body returns a plain value:
    the call never throws; what the body returns or throws settles the
    promise. *)
Definition async {A : Type} (body : M A) : M (Promise A) :=
  fun w =>
    match body w with
    | (Normal a, w') => (Normal (Fulfilled a), w')
    | (Throw e, w') => (Normal (Rejected e), w')
    end.

(** Calling an [async] function whose [return] statements return a promise
    that was not awaited: the promise of the call adopts the returned one. *)
Definition async_returning_promise {A : Type} (body : M (Promise A))
  : M (Promise A) :=
  fun w =>
    match body w with
    | (Normal p, w') => (Normal p, w')
    | (Throw e, w') => (Normal (Rejected e), w')
    end.

Definition of_sum {A : Type} (r : Thrown + A) : M A :=
  match r with
  | inl e => throw e
  | inr a => ret a
  end.

Definition log (e : Event) : M unit :=
  fun w => (Normal tt,
            {| _accessToken := _accessToken w;
               refreshToken := refreshToken w;
               onAccessTokenChange := onAccessTokenChange w;
               trace := trace w ++ [e] |}).

(** [Promise.all(ps)].  The values come in index order.  A rejection is the
    one that happened first: [order] lists the indices of [ps] in the order in
    which the promises settled (indices it leaves out settle last, in index
    order). *)
Definition settled_in {A : Type} (order : list nat) (ps : list (Promise A))
  : list (Promise A) :=
  flat_map (fun i => match nth_error ps i with
                     | Some p => [p]
                     | None => []
                     end) order ++ ps.

Fixpoint first_rejection {A : Type} (ps : list (Promise A)) : option Thrown :=
  match ps with
  | [] => None
  | Rejected e :: _ => Some e
  | Fulfilled _ :: rest => first_rejection rest
  end.

Definition fulfilled_values {A : Type} (ps : list (Promise A)) : list A :=
  flat_map (fun p => match p with
                     | Fulfilled a => [a]
                     | Rejected _ => []
                     end) ps.

Definition Promise_all {A : Type} (order : list nat) (ps : list (Promise A))
  : Promise (list A) :=
  match first_rejection (settled_in order ps) with
  | Some e => Rejected e
  | None => Fulfilled (fulfilled_values ps)
  end.

(* ===================================================================== *)
(** ** [querystring.stringify] *)
(* ===================================================================== *)

Definition hex_digit (n : nat) : ascii :=
  nth n (list_ascii_of_string "0123456789ABCDEF") "0"%char.

(** The characters [querystring.escape] leaves alone:
    [A-Z a-z 0-9 - _ . ! ~ * ' ( )]. *)
Definition qs_unreserved (c : ascii) : bool :=
  let n := nat_of_ascii c in
  (((65 <=? n) && (n <=? 90)) || ((97 <=? n) && (n <=? 122))
   || ((48 <=? n) && (n <=? 57)))%nat
  || existsb (Nat.eqb n) [45; 95; 46; 33; 126; 42; 39; 40; 41].

Fixpoint qs_escape (s : string) : string :=
  match s with
  | EmptyString => EmptyString
  | String c rest =>
      if qs_unreserved c then String c (qs_escape rest)
      else
        let n := nat_of_ascii c in
        String "%" (String (hex_digit (n / 16))
                      (String (hex_digit (n mod 16)) (qs_escape rest)))
  end.

Definition querystring_stringify (obj : list (string * string)) : string :=
  String.concat "&"
    (map (fun kv => qs_escape (fst kv) ++ "=" ++ qs_escape (snd kv)) obj).

(* ===================================================================== *)
(** ** Numbers of the bucket arithmetic *)
(* ===================================================================== *)

(** [ids.length] is a non-negative integer below 2^32; on such operands the
    double-precision quotients of [fetchAudioFeatures] round to the exact
    ceilings, so the finite values are kept as [nat].  Division by zero
    gives the two special values. *)
Inductive JsNumber : Type :=
| Num (n : nat)
| NaN
| PosInfinity.

(** [Math.ceil(a / b)] *)
Definition js_ceil_div (a b : JsNumber) : JsNumber :=
  match a, b with
  | NaN, _ | _, NaN => NaN
  | PosInfinity, PosInfinity => NaN
  | PosInfinity, Num _ => PosInfinity
  | Num _, PosInfinity => Num 0
  | Num x, Num 0 => match x with 0 => NaN | S _ => PosInfinity end
  | Num x, Num (S y) => Num ((x + y) / S y)
  end.

(** [a + b] *)
Definition js_add (a b : JsNumber) : JsNumber :=
  match a, b with
  | NaN, _ | _, NaN => NaN
  | PosInfinity, _ | _, PosInfinity => PosInfinity
  | Num x, Num y => Num (x + y)
  end.

(** [a < b] *)
Definition js_lt (a b : JsNumber) : bool :=
  match a, b with
  | NaN, _ | _, NaN => false
  | PosInfinity, _ => false
  | Num _, PosInfinity => true
  | Num x, Num y => (x <? y)%nat
  end.

(** [ids.slice(start, end)] for non-negative bounds: [NaN] counts as 0 and
    both bounds are clamped to the length. *)
Definition js_slice {A : Type} (l : list A) (start stop : JsNumber) : list A :=
  let clamp (x : JsNumber) :=
    match x with
    | Num n => Nat.min n (List.length l)
    | NaN => 0
    | PosInfinity => List.length l
    end in
  firstn (clamp stop - clamp start) (skipn (clamp start) l).

(** The [for] loop of [fetchAudioFeatures]:
    [for (let i = 0; i < ids.length; i += bucketSize)
       buckets.push(ids.slice(i, i + bucketSize));]
    [None] when the iterations allowed by [fuel] do not end it. *)
Fixpoint bucket_loop (fuel : nat) (ids : list string) (bucketSize i : JsNumber)
  (buckets : list (list string)) : option (list (list string)) :=
  if js_lt i (Num (List.length ids)) then
    match fuel with
    | 0 => None
    | S fuel' =>
        bucket_loop fuel' ids bucketSize (js_add i bucketSize)
          (buckets ++ [js_slice ids i (js_add i bucketSize)])
    end
  else Some buckets.

(** [const bucketSize = Math.ceil(ids.length / Math.ceil(ids.length / 100));] *)
Definition bucketSize_of (ids : list string) : JsNumber :=
  js_ceil_div (Num (List.length ids)) (js_ceil_div (Num (List.length ids)) (Num 100)).

(** The buckets that [fetchAudioFeatures] builds; the loop gets one
    iteration per id. *)
Definition buckets_of (ids : list string) : option (list (list string)) :=
  bucket_loop (List.length ids) ids (bucketSize_of ids) (Num 0) [].

(* ===================================================================== *)
(** ** The connection *)
(* ===================================================================== *)

Definition apiHost : string := "https://api.spotify.com".
Definition apiVersion : string := "v1".
Definition apiRoot : string := apiHost ++ "/" ++ apiVersion.

(** axios' default [validateStatus]: [status >= 200 && status < 300]. *)
Definition validateStatus (st : Z) : bool := ((200 <=? st) && (st <? 300))%Z.

(** axios' [settle] resolves the promise of a request when
    [!response.status || validateStatus(response.status)]: for a falsy
    status (0), or one that [validateStatus] accepts. *)
Definition resolves (st : Z) : bool := (st =? 0)%Z || validateStatus st.

Definition settle (reply : AxiosReply) : Promise FetchResult :=
  match reply with
  | HttpReply st d =>
      if resolves st then Fulfilled {| data := d; status := st |}
      else Rejected (AxiosError (Some (st, d)))
  | NoReply => Rejected (AxiosError None)
  end.

(** [{...config, method: m}] *)
Definition with_method (config : FetchConfig) (m : string) : FetchConfig :=
  {| url := url config; method := Some m;
     headers := headers config; params := params config |}.

(** [endpoint ? apiRoot + endpoint : config.url] (the empty string is
    falsy). *)
Definition request_url (endpoint : option string) (config : FetchConfig)
  : option string :=
  match endpoint with
  | Some EmptyString | None => url config
  | Some e => Some (apiRoot ++ e)
  end.

(** [error.isAxiosError && error.response.status === 401] *)
Definition is_unauthorized (error : Thrown) : M bool :=
  match error with
  | AxiosError (Some (st, _)) => ret (st =? 401)%Z
  | AxiosError None => throw TypeError
  | _ => ret false
  end.

Definition accessToken : M JsVal := fun w => (Normal (_accessToken w), w).

Definition set_accessToken (v : JsVal) : M unit :=
  fun w => (Normal tt,
            {| _accessToken := v; refreshToken := refreshToken w;
               onAccessTokenChange := onAccessTokenChange w;
               trace := trace w |}).

Definition this_refreshToken : M string :=
  fun w => (Normal (refreshToken w), w).

(** A call of a caller's callback: the call is on record, and then it
    returns or throws as the callback does. *)
Definition invoke (call : Event) (outcome : option Thrown) : M unit :=
  log call ;;;
  match outcome with
  | None => ret tt
  | Some e => throw e
  end.

(** [this.onAccessTokenChange(newToken)] *)
Definition this_onAccessTokenChange (newToken : JsVal) : M unit :=
  fun w =>
    invoke (AccessTokenChange newToken) (onAccessTokenChange w newToken) w.

(** [new SpotifyConnection(accessToken, refreshToken, onAccessTokenChange)] *)
Definition new_SpotifyConnection (accessToken refreshToken : string)
  (onAccessTokenChange : Callback) : World :=
  {| _accessToken := JsStr accessToken; refreshToken := refreshToken;
     onAccessTokenChange := onAccessTokenChange;
     trace := [] |}.

Fixpoint mapM {A B : Type} (f : A -> M B) (l : list A) : M (list B) :=
  match l with
  | [] => ret []
  | a :: rest => b <- f a ;; bs <- mapM f rest ;; ret (b :: bs)
  end.

Section Connection.

Variable remote : Remote.

(** [axios(request)]: the request goes out, and the promise settles with
    what the remote side answers. *)
Definition axios (request : FetchConfig) : M (Promise FetchResult) :=
  fun w =>
    let reply := remote (trace w) request in
    (Normal (settle reply), snd (log (Exchange request reply) w)).

Definition fetch (endpoint : option string) (config : FetchConfig)
  : M (Promise FetchResult) :=
  async (
    token <- accessToken ;;
    let headers' := obj_set "Authorization" (Bearer token) (headers config) in
    response <- (p <- axios {| url := request_url endpoint config;
                               method := method config;
                               headers := headers';
                               params := params config |} ;; await p) ;;
    ret {| data := data response; status := status response |}).

Definition tryRefresh : M (Promise JsVal) :=
  async (
    rt <- this_refreshToken ;;
    response <- (p <- axios {| url := Some ("/api/refresh?" ++
                                 querystring_stringify [("refresh_token", rt)]);
                               method := Some "GET";
                               headers := [];
                               params := [] |} ;; await p) ;;
    if negb (status response =? 200)%Z
    then throw (ThrownResponse (status response) (data response))
    else
      token <- of_sum (js_prop (data response) "access_token") ;;
      set_accessToken token ;;;
      accessToken).

(** The [try] block returns the promise of [this.fetch(...)] without
    awaiting it. *)
Definition get (endpoint : option string) (config : MethodConfig)
  : M (Promise FetchResult) :=
  async_returning_promise (
    try_catch
      (fetch endpoint (with_method config "get"))
      (fun error =>
         unauthorized <- is_unauthorized error ;;
         if (unauthorized : bool) then
           newToken <- (p <- tryRefresh ;; await p) ;;
           this_onAccessTokenChange newToken ;;;
           fetch endpoint (with_method config "get")
         else throw error)).

Definition fetchUserProfile : M (Promise JsVal) :=
  async (
    r <- (p <- get (Some "/me") emptyConfig ;; await p) ;;
    if negb (status r =? 200)%Z then throw (ThrownStatus (status r))
    else ret (data r)).

(** The [fetcher] closures of [fetchUserPlaylists] and
    [fetchPlaylistTracks], which are handed to [Paged.create]. *)
Definition page_fetcher (endpoint : string) (limit offset : Z)
  : M (Promise JsVal) :=
  async (
    r <- (p <- get (Some endpoint)
                 {| url := None; method := None; headers := [];
                    params := [("limit", JsNum limit);
                               ("offset", JsNum offset)] |} ;; await p) ;;
    ret (data r)).

Definition fetchUserPlaylists_fetcher : Z -> Z -> M (Promise JsVal) :=
  page_fetcher "/me/playlists".

Definition fetchPlaylistTracks_fetcher (id : string)
  : Z -> Z -> M (Promise JsVal) :=
  page_fetcher ("/playlists/" ++ id ++ "/tracks").

Definition audio_features_config (ids : list string) : MethodConfig :=
  {| url := None; method := None; headers := [];
     params := [("ids", JsStr (String.concat "," ids))] |}.

Definition fetchAudioFeaturesOfBucket (ids : list string) : M (Promise JsVal) :=
  async (
    result <- (p <- get (Some "/audio-features") (audio_features_config ids) ;;
               await p) ;;
    if negb (status result =? 200)%Z then throw (ThrownStatus (status result))
    else of_sum (js_prop (data result) "audio_features")).

(** [None]: the bucket loop did not end. *)
Definition fetchAudioFeatures (order : list nat) (ids : list string)
  : World -> option (Completion (Promise (list JsVal)) * World) :=
  fun w =>
    match buckets_of ids with
    | None => None
    | Some buckets =>
        Some (async (
          promises <- mapM fetchAudioFeaturesOfBucket buckets ;;
          results <- await (Promise_all order promises) ;;
          ret (flat results)) w)
    end.

(** [SpotifyConnection.establish(options)]: the promise of the call, and
    the connection it built.  A callback that the options leave out is
    [returns]. *)
Definition establish (accessToken refreshToken : string)
  (onGettingUserProfile onAccessTokenChange : Callback)
  : Completion (Promise unit) * World :=
  async (
    profile <- (p <- fetchUserProfile ;; await p) ;;
    invoke (GettingUserProfile profile) (onGettingUserProfile profile))
    (new_SpotifyConnection accessToken refreshToken onAccessTokenChange).

(** [SpotifyConnection.reestablish(options)] *)
Definition reestablish (refreshToken : string)
  (onGettingUserProfile onAccessTokenChange : Callback)
  : Completion (Promise unit) * World :=
  async (
    _ <- (p <- tryRefresh ;; await p) ;;
    profile <- (p <- fetchUserProfile ;; await p) ;;
    invoke (GettingUserProfile profile) (onGettingUserProfile profile))
    (new_SpotifyConnection "" refreshToken onAccessTokenChange).

End Connection.

(* ===================================================================== *)
(** ** Sequences of operations on one connection *)
(* ===================================================================== *)

(** The methods of a connection that a caller, or a [Paged] container
    holding one of its fetchers, can run. *)
Inductive Operation : Type :=
| OpFetch (endpoint : option string) (config : FetchConfig)
| OpGet (endpoint : option string) (config : MethodConfig)
| OpTryRefresh
| OpFetchUserProfile
| OpUserPlaylistsPage (limit offset : Z)
| OpPlaylistTracksPage (id : string) (limit offset : Z)
| OpFetchAudioFeatures (order : list nat) (ids : list string).

(** The connection after one operation; [None] if the operation does not
    return. *)
Definition perform (remote : Remote) (op : Operation) (w : World)
  : option World :=
  match op with
  | OpFetch endpoint config => Some (snd (fetch remote endpoint config w))
  | OpGet endpoint config => Some (snd (get remote endpoint config w))
  | OpTryRefresh => Some (snd (tryRefresh remote w))
  | OpFetchUserProfile => Some (snd (fetchUserProfile remote w))
  | OpUserPlaylistsPage limit offset =>
      Some (snd (fetchUserPlaylists_fetcher remote limit offset w))
  | OpPlaylistTracksPage id limit offset =>
      Some (snd (fetchPlaylistTracks_fetcher remote id limit offset w))
  | OpFetchAudioFeatures order ids =>
      option_map snd (fetchAudioFeatures remote order ids w)
  end.

Fixpoint perform_all (remote : Remote) (ops : list Operation) (w : World)
  : option World :=
  match ops with
  | [] => Some w
  | op :: rest =>
      match perform remote op w with
      | Some w' => perform_all remote rest w'
      | None => None
      end
  end.

(** What a trace says about the traffic. *)
Definition is_refresh_request (request : FetchConfig) : bool :=
  match url request with
  | Some u => String.prefix "/api/refresh?" u
  | None => false
  end.

Definition refresh_attempts (tr : list Event) : nat :=
  List.length (filter (fun e => match e with
                                | Exchange request _ => is_refresh_request request
                                | _ => false
                                end) tr).

Definition requests_sent (tr : list Event) : nat :=
  List.length (filter (fun e => match e with
                                | Exchange _ _ => true
                                | _ => false
                                end) tr).

Definition token_changes_reported (tr : list Event) : list JsVal :=
  flat_map (fun e => match e with
                     | AccessTokenChange t => [t]
                     | _ => []
                     end) tr.

Definition profiles_reported (tr : list Event) : list JsVal :=
  flat_map (fun e => match e with
                     | GettingUserProfile p => [p]
                     | _ => []
                     end) tr.

(** A reply that is an HTTP 200. *)
Definition is_ok (reply : AxiosReply) : bool :=
  match reply with
  | HttpReply st _ => (st =? 200)%Z
  | NoReply => false
  end.

(** The [audio_features] array of a chunk's reply, when it is an HTTP 200
    that carries one. *)
Definition audio_features_of (reply : AxiosReply) : option (list JsVal) :=
  match reply with
  | HttpReply st d =>
      if (st =? 200)%Z then
        match js_prop d "audio_features" with
        | inr (JsArr elems) => Some elems
        | _ => None
        end
      else None
  | NoReply => None
  end.

(** The request that [fetchAudioFeaturesOfBucket] sends for a bucket. *)
Definition bucket_request (token : JsVal) (bucket : list string) : FetchConfig :=
  {| url := Some (apiRoot ++ "/audio-features");
     method := Some "get";
     headers := [("Authorization", Bearer token)];
     params := [("ids", JsStr (String.concat "," bucket))] |}.

(* ===================================================================== *)
(** ** The earlier revision of the class ([verify]) *)
(* ===================================================================== *)

(** [src/unnamed/part_000] is the class before [tryRefresh] and the
    refreshing [get] were factored out: there [establish] runs [verify],
    whose [try] block awaits the profile fetch before returning it. *)
Module Earlier.

Section Connection.

Variable remote : Remote.

Definition fetch (endpoint : string) (config : FetchConfig)
  : M (Promise FetchResult) :=
  async (
    token <- accessToken ;;
    let headers' := obj_set "Authorization" (Bearer token) (headers config) in
    response <- (p <- axios remote {| url := Some (apiRoot ++ endpoint);
                                      method := method config;
                                      headers := headers';
                                      params := params config |} ;; await p) ;;
    ret {| data := data response; status := status response |}).

Definition get (endpoint : string) (config : MethodConfig)
  : M (Promise FetchResult) :=
  async_returning_promise (fetch endpoint (with_method config "get")).

Definition fetchUserProfile : M (Promise JsVal) :=
  async (
    r <- (p <- get "/me" emptyConfig ;; await p) ;;
    if negb (status r =? 200)%Z then throw (ThrownStatus (status r))
    else ret (data r)).

Definition verify (onAccessTokenChange : Callback) : M (Promise JsVal) :=
  async (
    try_catch
      (p <- fetchUserProfile ;; await p)
      (fun error =>
         unauthorized <- is_unauthorized error ;;
         if (unauthorized : bool) then
           rt <- this_refreshToken ;;
           response <- (p <- axios remote
                               {| url := Some ("/api/refresh?" ++
                                    querystring_stringify [("refresh_token", rt)]);
                                  method := Some "GET";
                                  headers := [];
                                  params := [] |} ;; await p) ;;
           if (status response =? 200)%Z then
             token <- of_sum (js_prop (data response) "access_token") ;;
             set_accessToken token ;;;
             current <- accessToken ;;
             invoke (AccessTokenChange current) (onAccessTokenChange current) ;;;
             p <- fetchUserProfile ;; await p
           else throw (ThrownStatus (status response))
         else throw error)).

(** The earlier class keeps no callback of its own: both are locals of
    [establish], and the slot of the later class stays at [returns]. *)
Definition establish (accessToken refreshToken : string)
  (onGettingUserProfile onAccessTokenChange : Callback)
  : Completion (Promise unit) * World :=
  async (
    profile <- (p <- verify onAccessTokenChange ;; await p) ;;
    invoke (GettingUserProfile profile) (onGettingUserProfile profile))
    (new_SpotifyConnection accessToken refreshToken returns).

End Connection.

End Earlier.

(* ===================================================================== *)
(** ** The paginated container *)
(* ===================================================================== *)

Module Paged.

Section Container.

Variable T : Type.

(** Modelled from the spec: the record [Page<T>] ([SpotifyPage] of
    [classes/Paged], which is not among the sources): the items, the total
    count, and the limit and offset used for the request. *)
Record Page : Type := mkPage {
  items : list T;
  total : nat;
  limit : nat;
  offset : nat
}.

(** Modelled from the spec: the state of [Paged<T>] ([classes/Paged] is not
    among the sources); [known_total] is [None] while the total is
    unknown. *)
Record Paged : Type := mkPaged {
  pageSize : nat;
  fetchedItems : list T;
  known_total : option nat;
  nextOffset : nat
}.

(** Modelled from the spec: one call of the [PageFetcher] contract,
    [(limit, offset) -> Page<T>], which may fail. *)
Definition PageFetcher : Type := nat -> nat -> Thrown + Page.

Inductive Failure : Type :=
| Exhausted                     (* nothing left to fetch *)
| FetchFailed (e : Thrown)      (* the fetcher's failure, unchanged *)
| InvalidTotal (t : nat).       (* the page's total did not validate *)

(** Modelled from the spec: [create(pageSize, fetcher)], the "nothing
    fetched yet" state (no request is made). *)
Definition create (size : nat) : Paged :=
  {| pageSize := size; fetchedItems := []; known_total := None;
     nextOffset := 0 |}.

(** Modelled from the spec: [isExhausted()], true iff the total is known
    and [nextOffset == total]. *)
Definition isExhausted (p : Paged) : bool :=
  match known_total p with
  | Some t => nextOffset p =? t
  | None => false
  end%nat.

(** Modelled from the spec: [items()]. *)
Definition items_of (p : Paged) : list T := fetchedItems p.

(** Modelled from the spec: the validation of a page's total in
    [fetchNext()].  The spec says that the total is recorded and validated
    and that, once the total is known, [nextOffset <= total] always holds; it
    does not name the check.  The check taken here is the one this invariant
    needs, the page invariant [offset + items.length <= total] at the offset
    of the request. *)
Definition total_validates (p : Paged) (pg : Page) : bool :=
  (nextOffset p + List.length (items pg) <=? total pg)%nat.

(** Modelled from the spec: [fetchNext()] ([classes/Paged] is not among the
    sources).  It fails if [nextOffset] already equals the known total;
    otherwise it issues one request at [(pageSize, nextOffset)]; a failure
    of the fetcher is passed on and nothing is changed; a page whose total
    does not validate is no successful response, and nothing is changed
    either; on success the items are appended, [nextOffset] advances by
    their number and the page's total is recorded. *)
Definition fetchNext (fetcher : PageFetcher) (p : Paged)
  : (Failure + list T) * Paged :=
  if isExhausted p then (inl Exhausted, p)
  else
    match fetcher (pageSize p) (nextOffset p) with
    | inl e => (inl (FetchFailed e), p)
    | inr pg =>
        if total_validates p pg then
          (inr (items pg),
           {| pageSize := pageSize p;
              fetchedItems := fetchedItems p ++ items pg;
              known_total := Some (total pg);
              nextOffset := nextOffset p + List.length (items pg) |})
        else (inl (InvalidTotal (total pg)), p)
    end.

(** A sequence of [fetchNext] calls; the remote side may answer each call
    differently, so each call has its own fetcher behaviour.  For every
    call: the state before, the outcome, the state after. *)
Fixpoint fetchNext_calls (fetchers : list PageFetcher) (p : Paged)
  : list (Paged * (Failure + list T) * Paged) :=
  match fetchers with
  | [] => []
  | f :: rest =>
      let (r, p') := fetchNext f p in
      (p, r, p') :: fetchNext_calls rest p'
  end.

(** [items().length == nextOffset], and the total is known with
    [nextOffset <= total]. *)
Definition accumulated (p : Paged) : Prop :=
  List.length (items_of p) = nextOffset p /\
  exists t, known_total p = Some t /\ nextOffset p <= t.

End Container.

Arguments items {T} _.
Arguments total {T} _.
Arguments limit {T} _.
Arguments offset {T} _.
Arguments mkPage {T} _ _ _ _.
Arguments total_validates {T} _ _.
Arguments pageSize {T} _.
Arguments fetchedItems {T} _.
Arguments known_total {T} _.
Arguments nextOffset {T} _.
Arguments isExhausted {T} _.
Arguments items_of {T} _.
Arguments fetchNext {T} _ _.
Arguments fetchNext_calls {T} _ _.
Arguments accumulated {T} _.

End Paged.

(* ===================================================================== *)
(** ** What the bulk fetch does, chunk by chunk *)
(* ===================================================================== *)

(** How the promise of [fetchAudioFeaturesOfBucket] settles, given the
    reply to the bucket's request. *)
Definition bucket_outcome (reply : AxiosReply) : Promise JsVal :=
  match settle reply with
  | Rejected e => Rejected e
  | Fulfilled r =>
      if negb (status r =? 200)%Z then Rejected (ThrownStatus (status r))
      else
        match js_prop (data r) "audio_features" with
        | inl e => Rejected e
        | inr v => Fulfilled v
        end
  end.

(** The exchanges of the chunk requests, in the order in which the requests
    go out, starting from the trace [tr]. *)
Fixpoint chunk_exchanges (remote : Remote) (tr : list Event) (token : JsVal)
  (buckets : list (list string)) : list (FetchConfig * AxiosReply) :=
  match buckets with
  | [] => []
  | b :: rest =>
      let request := bucket_request token b in
      let reply := remote tr request in
      (request, reply)
        :: chunk_exchanges remote (tr ++ [Exchange request reply]) token rest
  end.

Definition exchanges_events (xs : list (FetchConfig * AxiosReply)) : list Event :=
  map (fun x => Exchange (fst x) (snd x)) xs.

Definition extend_trace (w : World) (evs : list Event) : World :=
  {| _accessToken := _accessToken w; refreshToken := refreshToken w;
     onAccessTokenChange := onAccessTokenChange w;
     trace := trace w ++ evs |}.

(** The request of [tryRefresh]. *)
Definition refresh_request (rt : string) : FetchConfig :=
  {| url := Some ("/api/refresh?" ++ querystring_stringify [("refresh_token", rt)]);
     method := Some "GET"; headers := []; params := [] |}.

(** The request of [fetch]. *)
Definition fetch_request (token : JsVal) (endpoint : option string)
  (config : FetchConfig) : FetchConfig :=
  {| url := request_url endpoint config;
     method := method config;
     headers := obj_set "Authorization" (Bearer token) (headers config);
     params := params config |}.

(* ===================================================================== *)
(** ** Concrete remotes and inputs *)
(* ===================================================================== *)

Definition bearer_is (token : string) (request : FetchConfig) : bool :=
  match obj_get "Authorization" (headers request) with
  | Some (Bearer (JsStr t)) => String.eqb t token
  | _ => false
  end.

Definition is_refresh_for (rt : string) (request : FetchConfig) : bool :=
  match url request with
  | Some u => String.eqb u ("/api/refresh?refresh_token=" ++ rt)
  | None => false
  end.

Definition profile_body : JsVal :=
  JsObj [("display_name", JsStr "Ada"); ("id", JsStr "ada");
         ("type", JsStr "user")].

Definition expired_body : JsVal :=
  JsObj [("error", JsObj [("status", JsNum 401);
                          ("message", JsStr "The access token expired")])].

Definition fresh_token_body : JsVal :=
  JsObj [("access_token", JsStr "fresh-token")].

(** A service for which only ["fresh-token"] is a good access token, and
    where the refresh token ["valid-refresh"] buys exactly that token. *)
Definition stale_remote : Remote := fun _ request =>
  if is_refresh_for "valid-refresh" request then HttpReply 200 fresh_token_body
  else if is_refresh_request request then HttpReply 400 JsNull
  else if bearer_is "fresh-token" request then HttpReply 200 profile_body
  else HttpReply 401 expired_body.

(** A service that answers 401 to every API request, whatever the token,
    while its refresh endpoint hands out tokens. *)
Definition always_unauthorized : Remote := fun _ request =>
  if is_refresh_request request then HttpReply 200 fresh_token_body
  else HttpReply 401 expired_body.

Definition stale_connection : World :=
  new_SpotifyConnection "stale-token" "valid-refresh" returns.

(** Splitting [ids.join(',')] again, on the service's side. *)
Fixpoint split_commas (s current : string) : list string :=
  match s with
  | EmptyString => [current]
  | String c rest =>
      if Ascii.eqb c ","%char then current :: split_commas rest EmptyString
      else split_commas rest (current ++ String c EmptyString)
  end.

Definition feature_of (id : string) : JsVal :=
  JsObj [("id", JsStr id); ("type", JsStr "audio_features")].

Definition requested_ids (request : FetchConfig) : list string :=
  match obj_get "ids" (params request) with
  | Some (JsStr s) => split_commas s EmptyString
  | _ => []
  end.

(** A service that knows the audio features of every track. *)
Definition catalogue_remote : Remote := fun _ request =>
  HttpReply 200
    (JsObj [("audio_features", JsArr (map feature_of (requested_ids request)))]).

(** The same service, but it serves one request and then answers 429. *)
Definition rate_limited_remote : Remote := fun tr request =>
  match tr with
  | [] => catalogue_remote tr request
  | _ :: _ => HttpReply 429 JsNull
  end.

Definition letters : list ascii :=
  list_ascii_of_string "abcdefghijklmnopqrstuvwxyz".

(** 250 distinct two-letter ids. *)
Definition ids250 : list string :=
  firstn 250
    (flat_map (fun a => map (fun b => String a (String b EmptyString)) letters)
       letters).

(** A three-page collection of 120 numbered items. *)
Definition numbered_fetcher : Paged.PageFetcher nat := fun lim off =>
  if (off <=? 120)%nat
  then inr (Paged.mkPage (seq off (Nat.min lim (120 - off))) 120 lim off)
  else inl (ThrownStatus 404).

Definition failing_fetcher : Paged.PageFetcher nat := fun _ _ =>
  inl (ThrownStatus 503).

(** The same collection after it shrank to 70 items, served by a remote
    side that still hands out a full page. *)
Definition shrunk_fetcher : Paged.PageFetcher nat := fun lim off =>
  inr (Paged.mkPage (seq off lim) 70 lim off).

(* ===================================================================== *)
(** ** The shape of the buckets *)
(* ===================================================================== *)

(** The ceiling of [a / b] on naturals. *)
Definition ceil_div (a b : nat) : nat := (a + b - 1) / b.

(** Cutting [q] items into runs of [size]: full runs, and a last run with
    what is left. *)
Definition bucket_sizes (size q : nat) : list nat :=
  match q with
  | 0 => []
  | S q' => repeat size (q' / size) ++ [q - (q' / size) * size]
  end.

(* ===================================================================== *)
(** ** Replies, as the callers of the connection see them *)
(* ===================================================================== *)

(** What [fetchUserProfile] makes of the reply to its request: the body of
    an HTTP 200; the bare status for any other status with which axios
    resolves (another 2xx, or the falsy status 0); the axios error
    otherwise. *)
Definition profile_outcome (reply : AxiosReply) : Promise JsVal :=
  match reply with
  | HttpReply st d =>
      if (st =? 200)%Z then Fulfilled d
      else if resolves st then Rejected (ThrownStatus st)
      else Rejected (AxiosError (Some (st, d)))
  | NoReply => Rejected (AxiosError None)
  end.

(** The request of the [profile] fetch, [get('/me')]. *)
Definition profile_request (token : JsVal) : FetchConfig :=
  {| url := Some (apiRoot ++ "/me");
     method := Some "get";
     headers := [("Authorization", Bearer token)];
     params := [] |}.

(** The request that a page fetcher sends for [(limit, offset)]. *)
Definition page_request (token : JsVal) (endpoint : string) (limit offset : Z)
  : FetchConfig :=
  {| url := Some (apiRoot ++ endpoint);
     method := Some "get";
     headers := [("Authorization", Bearer token)];
     params := [("limit", JsNum limit); ("offset", JsNum offset)] |}.

(** What [result.data.audio_features] evaluates to for a chunk's reply, when
    the reply is an HTTP 200 and the read does not throw. *)
Definition chunk_value (reply : AxiosReply) : option JsVal :=
  match reply with
  | HttpReply st d =>
      if (st =? 200)%Z then
        match js_prop d "audio_features" with
        | inr v => Some v
        | inl _ => None
        end
      else None
  | NoReply => None
  end.

(** A connection whose stored access token is [token] after the events
    [evs]. *)
Definition with_token (w : World) (token : JsVal) (evs : list Event) : World :=
  {| _accessToken := token; refreshToken := refreshToken w;
     onAccessTokenChange := onAccessTokenChange w;
     trace := trace w ++ evs |}.

(** More remotes: one that answers 204 with an empty body, one whose 200
    replies carry an empty object, one whose 200 replies carry [null], one
    that is down, one that is unreachable. *)
Definition no_content_remote : Remote := fun _ _ => HttpReply 204 JsNull.

Definition empty_object_remote : Remote := fun _ _ => HttpReply 200 (JsObj []).

Definition null_body_remote : Remote := fun _ _ => HttpReply 200 JsNull.

Definition server_error_remote : Remote := fun _ _ => HttpReply 500 JsNull.

Definition offline_remote : Remote := fun _ _ => NoReply.

(** A stubbed adapter that hands axios a response with the falsy status 0. *)
Definition status_zero_remote : Remote := fun _ _ => HttpReply 0 JsNull.

(* ===================================================================== *)
(** * Properties *)
(* ===================================================================== *)

Open Scope list_scope.

(** ** Calls of [async] functions never throw *)

Lemma async_completes {A : Type} (body : M A) (w : World) :
  exists p w', async body w = (Normal p, w').
Proof.
  unfold async. destruct (body w) as [[a | e] w']; eauto.
Qed.

(** A [try] block whose body is the call of an [async] function never
    reaches its [catch] clause. *)
Lemma try_catch_async {A : Type} (body : M A) (handler : Thrown -> M (Promise A))
  (w : World) :
  try_catch (async body) handler w = async body w.
Proof.
  unfold try_catch. destruct (async_completes body w) as (p & w' & ->).
  reflexivity.
Qed.

(** ** One request, one exchange *)

Section ConnectionFacts.

Variable remote : Remote.

Lemma axios_spec (request : FetchConfig) (w : World) :
  axios remote request w =
  (Normal (settle (remote (trace w) request)),
   extend_trace w [Exchange request (remote (trace w) request)]).
Proof. reflexivity. Qed.

Lemma fetch_spec (endpoint : option string) (config : FetchConfig) (w : World) :
  let request := fetch_request (_accessToken w) endpoint config in
  let reply := remote (trace w) request in
  fetch remote endpoint config w =
  (Normal (settle reply), extend_trace w [Exchange request reply]).
Proof.
  cbv zeta. unfold fetch, async, bind, accessToken.
  rewrite axios_spec. fold (fetch_request (_accessToken w) endpoint config).
  destruct (remote (trace w) (fetch_request (_accessToken w) endpoint config))
    as [st d | ]; cbn [settle]; [ destruct (resolves st) | ]; reflexivity.
Qed.

(** The [catch] clause of [get] is dead: [get] is [fetch] with the method
    set, whatever the remote side answers. *)
Lemma get_is_fetch (endpoint : option string) (config : MethodConfig) (w : World) :
  get remote endpoint config w = fetch remote endpoint (with_method config "get") w.
Proof.
  unfold get, async_returning_promise.
  unfold fetch at 1. rewrite try_catch_async. fold (fetch remote endpoint (with_method config "get")).
  rewrite fetch_spec. reflexivity.
Qed.

Lemma get_spec (endpoint : option string) (config : MethodConfig) (w : World) :
  let request := fetch_request (_accessToken w) endpoint (with_method config "get") in
  let reply := remote (trace w) request in
  get remote endpoint config w =
  (Normal (settle reply), extend_trace w [Exchange request reply]).
Proof.
  cbv zeta. rewrite get_is_fetch. apply fetch_spec.
Qed.

(** Whatever the remote side and the connection: when the request of [get]
    is answered with a 401, the promise of [get] is rejected with that
    answer, and the request is all that happened. *)
Lemma get_on_401 (endpoint : option string) (config : MethodConfig) (w : World)
  (d : JsVal) :
  let request := fetch_request (_accessToken w) endpoint (with_method config "get") in
  remote (trace w) request = HttpReply 401 d ->
  get remote endpoint config w =
  (Normal (Rejected (AxiosError (Some (401%Z, d)))),
   extend_trace w [Exchange request (HttpReply 401 d)]).
Proof.
  cbv zeta. intros Hreply. rewrite get_spec, Hreply. reflexivity.
Qed.

(** X4.  [get] sends the one request of the call and nothing else: it leaves
    the stored token alone and reports no token change. *)
Lemma get_sends_one_request (endpoint : option string) (config : MethodConfig)
  (w : World) :
  let w' := snd (get remote endpoint config w) in
  _accessToken w' = _accessToken w /\
  refreshToken w' = refreshToken w /\
  requests_sent (trace w') = S (requests_sent (trace w)) /\
  token_changes_reported (trace w') = token_changes_reported (trace w).
Proof.
  cbv zeta. rewrite get_spec. cbn.
  unfold requests_sent, token_changes_reported.
  rewrite filter_app, length_app, flat_map_app. cbn.
  rewrite app_nil_r. repeat split; lia.
Qed.

End ConnectionFacts.

(** ** A stale access token *)

(** C1.  A connection whose access token is stale and whose refresh token is
    valid: [get] receives the 401 and passes it on as the rejection of its
    promise.  It sends the one request, makes no refresh attempt, keeps the
    stale token, never calls [onAccessTokenChange] and does not retry,
    although a refresh followed by the same [get] is answered with 200. *)
Theorem get_passes_401_on_without_refresh :
  let r := get stale_remote (Some "/me") emptyConfig stale_connection in
  r = (Normal (Rejected (AxiosError (Some (401%Z, expired_body)))),
       extend_trace stale_connection
         [Exchange (fetch_request (JsStr "stale-token") (Some "/me")
                      (with_method emptyConfig "get"))
                   (HttpReply 401 expired_body)]) /\
  refresh_attempts (trace (snd r)) = 0 /\
  requests_sent (trace (snd r)) = 1 /\
  token_changes_reported (trace (snd r)) = [] /\
  _accessToken (snd r) = JsStr "stale-token" /\
  let refreshed := tryRefresh stale_remote stale_connection in
  fst refreshed = Normal (Fulfilled (JsStr "fresh-token")) /\
  fst (get stale_remote (Some "/me") emptyConfig (snd refreshed)) =
    Normal (Fulfilled {| data := profile_body; status := 200 |}).
Proof.
  vm_compute. repeat split.
Qed.

(** C3.  [establish] with a stale access token and a valid refresh token:
    the verification fetch is rejected with the 401, no refresh is
    attempted, [onGettingUserProfile] is not called and [establish]
    fails. *)
Theorem establish_fails_on_stale_token :
  let r := establish stale_remote "stale-token" "valid-refresh" returns returns in
  fst r = Normal (Rejected (AxiosError (Some (401%Z, expired_body)))) /\
  refresh_attempts (trace (snd r)) = 0 /\
  requests_sent (trace (snd r)) = 1 /\
  profiles_reported (trace (snd r)) = [] /\
  _accessToken (snd r) = JsStr "stale-token".
Proof.
  vm_compute. repeat split.
Qed.

(** The earlier revision, on the same input: [verify] catches the 401,
    refreshes once, reports the new token, retries, and [establish]
    succeeds and reports the profile. *)
Lemma earlier_establish_refreshes_stale_token :
  let r := Earlier.establish stale_remote "stale-token" "valid-refresh"
             returns returns in
  fst r = Normal (Fulfilled tt) /\
  refresh_attempts (trace (snd r)) = 1 /\
  requests_sent (trace (snd r)) = 3 /\
  token_changes_reported (trace (snd r)) = [JsStr "fresh-token"] /\
  profiles_reported (trace (snd r)) = [profile_body] /\
  _accessToken (snd r) = JsStr "fresh-token".
Proof.
  vm_compute. repeat split.
Qed.

(** C7.  Every call of [get] makes at most one refresh attempt, and no
    second refresh or retry: the request of the call is all that it sends.
    When that request is answered with a 401, as it is by a service that
    answers 401 to the original request and would answer 401 to any retry,
    the operation fails with that 401. *)
Theorem get_makes_at_most_one_refresh_attempt (remote : Remote)
  (endpoint : option string) (config : MethodConfig) (w : World) :
  let r := get remote endpoint config w in
  let request := fetch_request (_accessToken w) endpoint (with_method config "get") in
  let reply := remote (trace w) request in
  snd r = extend_trace w [Exchange request reply] /\
  refresh_attempts [Exchange request reply] <= 1 /\
  refresh_attempts (trace (snd r)) <= refresh_attempts (trace w) + 1 /\
  requests_sent (trace (snd r)) = requests_sent (trace w) + 1 /\
  forall d, reply = HttpReply 401 d ->
            fst r = Normal (Rejected (AxiosError (Some (401%Z, d)))).
Proof.
  cbv zeta. rewrite get_spec. cbn [fst snd extend_trace trace].
  unfold refresh_attempts, requests_sent.
  rewrite !filter_app, !length_app. cbn [filter List.length].
  split; [ reflexivity | ].
  split; [ destruct (is_refresh_request _); cbn [List.length]; lia | ].
  split; [ destruct (is_refresh_request _); cbn [List.length]; lia | ].
  split; [ reflexivity | ].
  intros d ->. reflexivity.
Qed.

Lemma get_makes_at_most_one_refresh_attempt_witness :
  let r := get always_unauthorized (Some "/me") emptyConfig stale_connection in
  fst r = Normal (Rejected (AxiosError (Some (401%Z, expired_body)))) /\
  refresh_attempts (trace (snd r)) <= 1 /\
  requests_sent (trace (snd r)) = 1.
Proof.
  destruct (get_makes_at_most_one_refresh_attempt always_unauthorized
              (Some "/me") emptyConfig stale_connection)
    as (_ & _ & Hrefresh & Hsent & Hfail).
  split; [ exact (Hfail expired_body eq_refl) | ].
  split; [ exact Hrefresh | exact Hsent ].
Defined.

(** On that service the single request is all there is: no refresh attempt
    is made at all. *)
Lemma get_double_401_makes_no_refresh_attempt :
  let r := get always_unauthorized (Some "/me") emptyConfig stale_connection in
  fst r = Normal (Rejected (AxiosError (Some (401%Z, expired_body)))) /\
  refresh_attempts (trace (snd r)) = 0 /\
  requests_sent (trace (snd r)) = 1.
Proof.
  vm_compute. repeat split.
Qed.

(** C4.  [reestablish] with a valid refresh token replaces the stored access
    token (the empty string) by the refreshed one and succeeds, and a direct
    [tryRefresh] replaces a stale token; in neither case is
    [onAccessTokenChange] called. *)
Theorem refresh_outside_get_is_not_reported :
  let r := reestablish stale_remote "valid-refresh" returns returns in
  fst r = Normal (Fulfilled tt) /\
  _accessToken (new_SpotifyConnection "" "valid-refresh" returns) = JsStr "" /\
  _accessToken (snd r) = JsStr "fresh-token" /\
  refresh_attempts (trace (snd r)) = 1 /\
  token_changes_reported (trace (snd r)) = [] /\
  let d := tryRefresh stale_remote stale_connection in
  fst d = Normal (Fulfilled (JsStr "fresh-token")) /\
  _accessToken (snd d) = JsStr "fresh-token" /\
  token_changes_reported (trace (snd d)) = [].
Proof.
  vm_compute. repeat split.
Qed.

(** ** The bucket loop *)

Lemma js_slice_length {A : Type} (l : list A) (i size : nat) :
  i < List.length l ->
  List.length (js_slice l (Num i) (Num (i + size))) = Nat.min size (List.length l - i).
Proof.
  intros Hi. unfold js_slice. rewrite length_firstn, length_skipn. lia.
Qed.

Lemma js_slice_skipn {A : Type} (l : list A) (i size : nat) :
  i < List.length l ->
  (js_slice l (Num i) (Num (i + size)) ++ skipn (i + size) l)%list = skipn i l.
Proof.
  intros Hi. unfold js_slice.
  replace (Nat.min i (List.length l)) with i by lia.
  replace (i + size) with (size + i) at 2 by lia.
  rewrite <- skipn_skipn.
  destruct (Nat.le_gt_cases (i + size) (List.length l)) as [Hle | Hgt].
  - replace (Nat.min (i + size) (List.length l) - i) with size by lia.
    apply firstn_skipn.
  - replace (Nat.min (i + size) (List.length l) - i) with (List.length (skipn i l))
      by (rewrite length_skipn; lia).
    rewrite firstn_all.
    rewrite (skipn_all2 (skipn i l)) by (rewrite length_skipn; lia).
    apply app_nil_r.
Qed.

Lemma bucket_sizes_step (size q : nat) :
  1 <= size -> 1 <= q ->
  bucket_sizes size q = Nat.min size q :: bucket_sizes size (q - size).
Proof.
  intros Hs Hq. destruct q as [ | q']; [ lia | ].
  destruct (Nat.le_gt_cases (S q') size) as [Hle | Hgt].
  - replace (S q' - size) with 0 by lia.
    unfold bucket_sizes. rewrite Nat.div_small by lia. cbn [repeat app].
    f_equal. lia.
  - destruct (S q' - size) as [ | r] eqn:Hr; [ lia | ].
    unfold bucket_sizes.
    assert (Hdiv : q' / size = S (r / size)).
    { replace q' with (r + 1 * size) by lia.
      rewrite Nat.div_add by lia. lia. }
    rewrite Hdiv. cbn [repeat app]. f_equal; [ lia | ].
    f_equal. f_equal. nia.
Qed.

(** With a bucket size of at least one and an iteration per remaining id,
    the loop ends; it appends the remaining ids, in order, cut into
    buckets of the sizes [bucket_sizes]. *)
Lemma bucket_loop_spec (ids : list string) (size : nat) :
  1 <= size ->
  forall (fuel i : nat) (acc : list (list string)),
    List.length ids - i <= fuel ->
    exists bs,
      bucket_loop fuel ids (Num size) (Num i) acc = Some (acc ++ bs)%list /\
      List.concat bs = skipn i ids /\
      map (@List.length string) bs = bucket_sizes size (List.length ids - i).
Proof.
  intros Hs fuel. induction fuel as [ | fuel IH]; intros i acc Hfuel.
  - exists []. cbn [bucket_loop js_lt].
    replace (i <? List.length ids)%nat with false
      by (symmetry; apply Nat.ltb_ge; lia).
    rewrite app_nil_r, skipn_all2 by lia.
    replace (List.length ids - i) with 0 by lia. auto.
  - cbn [bucket_loop js_lt js_add].
    destruct (i <? List.length ids)%nat eqn:Hlt.
    + apply Nat.ltb_lt in Hlt.
      destruct (IH (i + size) (acc ++ [js_slice ids (Num i) (Num (i + size))]))
        as (bs & Hrun & Hcat & Hlen); [ lia | ].
      exists (js_slice ids (Num i) (Num (i + size)) :: bs). split; [ | split ].
      * rewrite Hrun, <- app_assoc. reflexivity.
      * cbn [List.concat]. rewrite Hcat. apply js_slice_skipn; assumption.
      * cbn [map]. rewrite Hlen, js_slice_length by assumption.
        rewrite (bucket_sizes_step size (List.length ids - i)) by lia.
        f_equal. f_equal. lia.
    + apply Nat.ltb_ge in Hlt. exists [].
      rewrite app_nil_r, skipn_all2 by lia.
      replace (List.length ids - i) with 0 by lia. auto.
Qed.

(** More iterations than needed change nothing. *)
Lemma bucket_loop_fuel (ids : list string) (size : nat) :
  1 <= size ->
  forall (fuel fuel' i : nat) (acc : list (list string)),
    List.length ids - i <= fuel -> fuel <= fuel' ->
    bucket_loop fuel' ids (Num size) (Num i) acc =
    bucket_loop fuel ids (Num size) (Num i) acc.
Proof.
  intros Hs fuel. induction fuel as [ | fuel IH]; intros fuel' i acc Hfuel Hle.
  - assert (Hge : (i <? List.length ids)%nat = false) by (apply Nat.ltb_ge; lia).
    destruct fuel'; cbn [bucket_loop js_lt]; rewrite Hge; reflexivity.
  - destruct fuel' as [ | fuel']; [ lia | ].
    cbn [bucket_loop js_lt js_add].
    destruct (i <? List.length ids)%nat eqn:Hlt; [ | reflexivity ].
    apply IH; lia.
Qed.

(** ** The bucket arithmetic *)

Lemma ceil_div_bounds (a b : nat) :
  1 <= b -> a <= b * ceil_div a b /\ b * ceil_div a b < a + b.
Proof.
  intros Hb. unfold ceil_div.
  pose proof (Nat.div_mod_eq (a + b - 1) b) as Heq.
  pose proof (Nat.mod_upper_bound (a + b - 1) b) as Hlt.
  nia.
Qed.

Lemma js_ceil_div_num (a b : nat) :
  1 <= b -> js_ceil_div (Num a) (Num b) = Num (ceil_div a b).
Proof.
  intros Hb. destruct b as [ | b']; [ lia | ].
  unfold js_ceil_div, ceil_div. f_equal. f_equal. lia.
Qed.

(** For [n >= 1] ids: [chunkCount = ceil(n / 100)] is at least one, the
    bucket size [ceil(n / chunkCount)] lies between 1 and 100, and
    [chunkCount - 1] full buckets leave between 1 and [size] ids. *)
Lemma bucket_arithmetic (n : nat) :
  1 <= n ->
  let chunkCount := ceil_div n 100 in
  let size := ceil_div n chunkCount in
  1 <= chunkCount /\ 1 <= size <= 100 /\
  (chunkCount - 1) * size < n /\ n <= chunkCount * size /\
  (n - 1) / size = chunkCount - 1.
Proof.
  intros Hn chunkCount size.
  destruct (ceil_div_bounds n 100) as [Hc1 Hc2]; [ lia | ].
  fold chunkCount in Hc1, Hc2.
  assert (Hc : 1 <= chunkCount) by lia.
  destruct (ceil_div_bounds n chunkCount Hc) as [Hs1 Hs2].
  fold size in Hs1, Hs2.
  assert (Hs : 1 <= size <= 100) by nia.
  assert (Hfull : (chunkCount - 1) * size < n) by nia.
  repeat split; try lia.
  symmetry.
  apply (Nat.div_unique (n - 1) size (chunkCount - 1)
           (n - 1 - size * (chunkCount - 1))); nia.
Qed.

Lemma bucketSize_of_nonempty (ids : list string) :
  ids <> [] ->
  bucketSize_of ids =
  Num (ceil_div (List.length ids) (ceil_div (List.length ids) 100)).
Proof.
  intros Hne.
  assert (Hn : 1 <= List.length ids) by (destruct ids; [ congruence | cbn; lia ]).
  destruct (bucket_arithmetic _ Hn) as (Hc & _).
  unfold bucketSize_of.
  rewrite (js_ceil_div_num _ 100) by lia.
  apply js_ceil_div_num; assumption.
Qed.

(** The loop of [fetchAudioFeatures] always ends. *)
Lemma buckets_of_total (ids : list string) :
  exists buckets, buckets_of ids = Some buckets /\ List.concat buckets = ids.
Proof.
  destruct ids as [ | id rest].
  - exists []. split; reflexivity.
  - assert (Hne : id :: rest <> []) by congruence.
    assert (Hn : 1 <= List.length (id :: rest)) by (cbn; lia).
    destruct (bucket_arithmetic _ Hn) as (_ & Hs & _).
    unfold buckets_of. rewrite (bucketSize_of_nonempty _ Hne).
    destruct (bucket_loop_spec (id :: rest) _ (proj1 Hs)
                (List.length (id :: rest)) 0 []) as (bs & Hrun & Hcat & _);
      [ lia | ].
    exists bs. split; assumption.
Qed.

(** C2, as the code has it.  A non-empty list of [n] ids is cut into
    exactly [chunkCount = ceil(n / 100)] contiguous buckets; every bucket but
    the last holds [size = ceil(n / chunkCount)] ids, at most 100, and the
    last one holds the [n - (chunkCount - 1) * size] ids that are left,
    at least one and at most [size]. *)
Theorem fetchAudioFeatures_buckets (ids : list string) :
  ids <> [] ->
  let n := List.length ids in
  let chunkCount := ceil_div n 100 in
  let size := ceil_div n chunkCount in
  exists buckets,
    buckets_of ids = Some buckets /\
    bucketSize_of ids = Num size /\
    List.concat buckets = ids /\
    List.length buckets = chunkCount /\
    map (@List.length string) buckets =
      repeat size (chunkCount - 1) ++ [n - (chunkCount - 1) * size] /\
    1 <= n - (chunkCount - 1) * size <= size /\
    size <= 100.
Proof.
  intros Hne n chunkCount size.
  assert (Hn : 1 <= n) by (subst n; destruct ids; [ congruence | cbn; lia ]).
  destruct (bucket_arithmetic n Hn) as (Hc & Hs & Hfull & Hcover & Hdiv).
  fold chunkCount in Hc, Hs, Hfull, Hcover, Hdiv.
  fold size in Hs, Hfull, Hcover, Hdiv.
  destruct (bucket_loop_spec ids size (proj1 Hs) n 0 [])
    as (bs & Hrun & Hcat & Hlen); [ lia | ].
  assert (Hsizes : map (@List.length string) bs =
                   repeat size (chunkCount - 1) ++ [n - (chunkCount - 1) * size]).
  { rewrite Hlen. fold n. rewrite Nat.sub_0_r.
    destruct n as [ | n']; [ lia | ].
    unfold bucket_sizes.
    replace (n' / size) with (chunkCount - 1)
      by (rewrite <- Hdiv; f_equal; lia).
    reflexivity. }
  exists bs. repeat split; try nia.
  - unfold buckets_of. rewrite (bucketSize_of_nonempty ids Hne). exact Hrun.
  - apply bucketSize_of_nonempty; assumption.
  - exact Hcat.
  - rewrite <- (length_map (@List.length string)), Hsizes.
    rewrite length_app, repeat_length. cbn [List.length]. lia.
  - exact Hsizes.
Qed.

Lemma fetchAudioFeatures_buckets_witness :
  ids250 <> [] /\
  exists buckets,
    buckets_of ids250 = Some buckets /\
    List.concat buckets = ids250 /\
    map (@List.length string) buckets = [84; 84; 82].
Proof.
  assert (Hne : ids250 <> []) by (intros H; vm_compute in H; discriminate H).
  split; [ exact Hne | ].
  destruct (fetchAudioFeatures_buckets ids250 Hne)
    as (buckets & Hrun & _ & Hcat & _ & Hsizes & _).
  exists buckets. repeat split; [ exact Hrun | exact Hcat | ].
  rewrite Hsizes. vm_compute. reflexivity.
Defined.

(** C2 with near-equal sizes fails: 250 ids give buckets of 84, 84 and 82
    ids, and 82 is neither [floor(250 / 3)] nor [ceil(250 / 3)]. *)
Lemma buckets_of_250_ids_not_near_equal :
  exists buckets,
    List.length ids250 = 250 /\
    buckets_of ids250 = Some buckets /\
    List.length buckets = ceil_div 250 100 /\
    map (@List.length string) buckets = [84; 84; 82] /\
    map (@List.length string) buckets <> [84; 83; 83] /\
    ~ Forall (fun b => List.length b = 250 / 3 \/ List.length b = ceil_div 250 3)
        buckets.
Proof.
  destruct (buckets_of ids250) as [buckets | ] eqn:Hrun;
    [ | vm_compute in Hrun; discriminate Hrun ].
  exists buckets.
  assert (Hsizes : map (@List.length string) buckets = [84; 84; 82]).
  { vm_compute in Hrun. injection Hrun as <-. vm_compute. reflexivity. }
  split; [ vm_compute; reflexivity | ].
  split; [ reflexivity | ].
  split; [ rewrite <- (length_map (@List.length string)), Hsizes;
           vm_compute; reflexivity | ].
  split; [ exact Hsizes | ].
  split; [ rewrite Hsizes; discriminate | ].
  intros Hall.
  apply (Forall_map (@List.length string)
           (fun s => s = 250 / 3 \/ s = ceil_div 250 3)) in Hall.
  rewrite Hsizes in Hall.
  apply Forall_inv_tail, Forall_inv_tail, Forall_inv in Hall.
  vm_compute in Hall. destruct Hall as [H | H]; discriminate H.
Qed.

(** ** [Promise.all] *)

Lemma first_rejection_app {A : Type} (ps qs : list (Promise A)) :
  first_rejection (ps ++ qs) =
  match first_rejection ps with
  | Some e => Some e
  | None => first_rejection qs
  end.
Proof.
  induction ps as [ | [a | e] ps IH]; cbn; auto.
Qed.

Lemma first_rejection_in {A : Type} (ps : list (Promise A)) (e : Thrown) :
  In (Rejected e) ps -> exists e', first_rejection ps = Some e'.
Proof.
  induction ps as [ | [a | e0] ps IH]; cbn; intros Hin.
  - contradiction.
  - destruct Hin as [Heq | Hin]; [ discriminate Heq | auto ].
  - eauto.
Qed.

Lemma first_rejection_none {A : Type} (ps : list (Promise A)) :
  (forall p, In p ps -> exists a, p = Fulfilled a) ->
  first_rejection ps = None.
Proof.
  induction ps as [ | p ps IH]; cbn; intros Hall; [ reflexivity | ].
  destruct (Hall p (or_introl eq_refl)) as (a & ->).
  apply IH. intros q Hq. apply Hall. right. exact Hq.
Qed.

Lemma settled_in_members {A : Type} (order : list nat) (ps : list (Promise A))
  (p : Promise A) :
  In p (settled_in order ps) -> In p ps.
Proof.
  unfold settled_in. rewrite in_app_iff, in_flat_map.
  intros [(i & _ & Hi) | Hin]; [ | exact Hin ].
  destruct (nth_error ps i) as [q | ] eqn:Hnth; [ | contradiction ].
  destruct Hi as [<- | []]. eapply nth_error_In; eassumption.
Qed.

(** One rejected promise rejects the whole, whatever the order of
    settlement. *)
Lemma Promise_all_rejected {A : Type} (order : list nat) (ps : list (Promise A))
  (e : Thrown) :
  In (Rejected e) ps -> exists e', Promise_all order ps = Rejected e'.
Proof.
  intros Hin. unfold Promise_all, settled_in.
  rewrite first_rejection_app.
  destruct (first_rejection (flat_map _ order)) as [e1 | ]; [ eauto | ].
  destruct (first_rejection_in ps e Hin) as (e' & ->). eauto.
Qed.

(** When all are fulfilled the values come in index order, whatever the
    order of settlement. *)
Lemma Promise_all_fulfilled {A : Type} (order : list nat) (vs : list A) :
  Promise_all order (map Fulfilled vs) = Fulfilled vs.
Proof.
  unfold Promise_all. rewrite first_rejection_none.
  - f_equal. unfold fulfilled_values.
    induction vs as [ | v vs IH]; cbn; [ | rewrite IH ]; reflexivity.
  - intros p Hp. apply settled_in_members in Hp.
    apply in_map_iff in Hp. destruct Hp as (a & <- & _). eauto.
Qed.

(** ** The chunk requests of [fetchAudioFeatures] *)

Lemma extend_trace_nil (w : World) : extend_trace w [] = w.
Proof.
  destruct w as [token rt tr]. unfold extend_trace. cbn.
  rewrite app_nil_r. reflexivity.
Qed.

Lemma extend_trace_app (w : World) (evs evs' : list Event) :
  extend_trace (extend_trace w evs) evs' = extend_trace w (evs ++ evs').
Proof.
  unfold extend_trace. cbn. rewrite app_assoc. reflexivity.
Qed.

Lemma flat_arrays (arrays : list (list JsVal)) :
  flat (map JsArr arrays) = List.concat arrays.
Proof.
  unfold flat. induction arrays as [ | a arrays IH]; cbn;
    [ | rewrite IH ]; reflexivity.
Qed.

Lemma bucket_outcome_not_ok (reply : AxiosReply) :
  is_ok reply = false -> exists e, bucket_outcome reply = Rejected e.
Proof.
  destruct reply as [st d | ]; cbn [is_ok]; intros Hok; [ | cbn; eauto ].
  unfold bucket_outcome. cbn [settle].
  destruct (resolves st); cbn [status data]; [ | eauto ].
  rewrite Hok. cbn. eauto.
Qed.

Lemma bucket_outcome_array (reply : AxiosReply) (elems : list JsVal) :
  audio_features_of reply = Some elems ->
  bucket_outcome reply = Fulfilled (JsArr elems).
Proof.
  destruct reply as [st d | ]; cbn; [ | discriminate ].
  destruct (st =? 200)%Z eqn:Hst; [ | discriminate ].
  apply Z.eqb_eq in Hst. subst st.
  unfold bucket_outcome. cbn.
  destruct (js_prop d "audio_features") as [e | [ | | | | | l | ]];
    try discriminate.
  intros [= ->]. reflexivity.
Qed.

Section BulkFetch.

Variable remote : Remote.

Lemma fetchAudioFeaturesOfBucket_spec (bucket : list string) (w : World) :
  let request := bucket_request (_accessToken w) bucket in
  let reply := remote (trace w) request in
  fetchAudioFeaturesOfBucket remote bucket w =
  (Normal (bucket_outcome reply), extend_trace w [Exchange request reply]).
Proof.
  cbv zeta. unfold fetchAudioFeaturesOfBucket, async, bind.
  rewrite get_spec.
  change (fetch_request (_accessToken w) (Some "/audio-features")
            (with_method (audio_features_config bucket) "get"))
    with (bucket_request (_accessToken w) bucket).
  unfold bucket_outcome.
  destruct (settle (remote (trace w) (bucket_request (_accessToken w) bucket)))
    as [r | e]; cbn; [ | reflexivity ].
  destruct (negb (status r =? 200)%Z); cbn; [ reflexivity | ].
  destruct (js_prop (data r) "audio_features"); reflexivity.
Qed.

(** [buckets.map((bucket) => this.fetchAudioFeaturesOfBucket(bucket))]: one
    request per bucket, in bucket order, all with the same token. *)
Lemma map_fetchAudioFeaturesOfBucket (buckets : list (list string)) :
  forall w : World,
    let xs := chunk_exchanges remote (trace w) (_accessToken w) buckets in
    mapM (fetchAudioFeaturesOfBucket remote) buckets w =
    (Normal (map (fun x => bucket_outcome (snd x)) xs),
     extend_trace w (exchanges_events xs)).
Proof.
  induction buckets as [ | b buckets IH]; intros w; cbv zeta.
  - cbn. rewrite extend_trace_nil. reflexivity.
  - cbn [mapM]. unfold bind at 1. rewrite fetchAudioFeaturesOfBucket_spec.
    unfold bind at 1. rewrite IH. cbn [ret chunk_exchanges map exchanges_events].
    rewrite extend_trace_app. reflexivity.
Qed.

Lemma chunk_exchanges_requests (tr : list Event) (token : JsVal)
  (buckets : list (list string)) :
  map fst (chunk_exchanges remote tr token buckets) =
  map (bucket_request token) buckets.
Proof.
  revert tr. induction buckets as [ | b buckets IH]; intros tr; cbn;
    [ | rewrite IH ]; reflexivity.
Qed.

(** The whole of [fetchAudioFeatures], once the buckets are known. *)
Lemma fetchAudioFeatures_spec (order : list nat) (ids : list string)
  (buckets : list (list string)) (w : World) :
  buckets_of ids = Some buckets ->
  let xs := chunk_exchanges remote (trace w) (_accessToken w) buckets in
  fetchAudioFeatures remote order ids w =
  Some (Normal
          match Promise_all order (map (fun x => bucket_outcome (snd x)) xs) with
          | Fulfilled results => Fulfilled (flat results)
          | Rejected e => Rejected e
          end,
        extend_trace w (exchanges_events xs)).
Proof.
  intros Hb. cbv zeta. unfold fetchAudioFeatures. rewrite Hb.
  unfold async, bind. rewrite map_fetchAudioFeaturesOfBucket.
  destruct (Promise_all order _) as [results | e]; reflexivity.
Qed.

End BulkFetch.

(** ** The bulk fetch as a whole *)

(** C5.  If the reply to any one chunk request is not an HTTP 200, the
    promise of [fetchAudioFeatures] is rejected, whatever the other chunks
    returned and in whatever order the requests completed: no list is
    handed to the caller. *)
Theorem fetchAudioFeatures_fails_as_a_whole
  (remote : Remote) (order : list nat) (ids : list string) (w : World)
  (buckets : list (list string)) (request : FetchConfig) (reply : AxiosReply) :
  buckets_of ids = Some buckets ->
  In (request, reply)
     (chunk_exchanges remote (trace w) (_accessToken w) buckets) ->
  is_ok reply = false ->
  exists e,
    fetchAudioFeatures remote order ids w =
    Some (Normal (Rejected e),
          extend_trace w
            (exchanges_events
               (chunk_exchanges remote (trace w) (_accessToken w) buckets))).
Proof.
  intros Hb Hin Hok.
  rewrite (fetchAudioFeatures_spec remote order ids buckets w Hb).
  destruct (bucket_outcome_not_ok reply Hok) as (e & He).
  destruct (Promise_all_rejected order
              (map (fun x => bucket_outcome (snd x))
                 (chunk_exchanges remote (trace w) (_accessToken w) buckets)) e)
    as (e' & ->).
  - apply in_map_iff. exists (request, reply). split; [ exact He | exact Hin ].
  - exists e'. reflexivity.
Qed.

(** C6.  If every chunk request is answered by an HTTP 200 whose
    [audio_features] is an array, the promise of [fetchAudioFeatures] is
    fulfilled with the concatenation of these arrays in the order of the
    chunks, whatever the order in which the requests completed.  The chunk
    requests go out in the order of the buckets, and the buckets in sequence
    are the input ids: when each array lists the features of its bucket's
    ids, the result lists the features of the ids in input order. *)
Theorem fetchAudioFeatures_concatenates_in_chunk_order
  (remote : Remote) (order : list nat) (ids : list string) (w : World)
  (buckets : list (list string)) (arrays : list (list JsVal)) :
  buckets_of ids = Some buckets ->
  map (fun x => audio_features_of (snd x))
      (chunk_exchanges remote (trace w) (_accessToken w) buckets)
    = map Some arrays ->
  fetchAudioFeatures remote order ids w =
    Some (Normal (Fulfilled (List.concat arrays)),
          extend_trace w
            (exchanges_events
               (chunk_exchanges remote (trace w) (_accessToken w) buckets))) /\
  map fst (chunk_exchanges remote (trace w) (_accessToken w) buckets) =
    map (bucket_request (_accessToken w)) buckets /\
  List.concat buckets = ids /\
  forall feature : string -> JsVal,
    arrays = map (map feature) buckets ->
    List.concat arrays = map feature ids.
Proof.
  intros Hb Harrays.
  destruct (buckets_of_total ids) as (buckets' & Hb' & Hcat).
  rewrite Hb in Hb'. injection Hb' as <-.
  split; [ | split; [ apply chunk_exchanges_requests | split; [ exact Hcat | ] ] ].
  - rewrite (fetchAudioFeatures_spec remote order ids buckets w Hb).
    assert (Hout : map (fun x => bucket_outcome (snd x))
                     (chunk_exchanges remote (trace w) (_accessToken w) buckets)
                   = map Fulfilled (map JsArr arrays)).
    { revert Harrays.
      generalize (chunk_exchanges remote (trace w) (_accessToken w) buckets).
      intros xs. revert arrays.
      induction xs as [ | x xs IH]; intros [ | a arrays]; cbn;
        try discriminate; [ reflexivity | ].
      intros [= Ha Hrest].
      rewrite (bucket_outcome_array _ _ Ha), (IH _ Hrest). reflexivity. }
    rewrite Hout, Promise_all_fulfilled, flat_arrays. reflexivity.
  - intros feature ->. rewrite <- Hcat. symmetry. apply concat_map.
Qed.

(** C10.  For the empty list of ids the bucket size is not a number, the
    loop body never runs, no request is sent and the promise is fulfilled
    with the empty list. *)
Theorem fetchAudioFeatures_empty (remote : Remote) (order : list nat) (w : World) :
  bucketSize_of [] = NaN /\
  buckets_of [] = Some [] /\
  fetchAudioFeatures remote order [] w = Some (Normal (Fulfilled []), w).
Proof.
  split; [ reflexivity | split; [ reflexivity | ] ].
  rewrite (fetchAudioFeatures_spec remote order [] [] w eq_refl).
  cbn [chunk_exchanges map exchanges_events].
  pose proof (Promise_all_fulfilled order (@nil JsVal)) as Hall.
  cbn [map] in Hall. rewrite Hall, extend_trace_nil.
  reflexivity.
Qed.

Lemma fetchAudioFeatures_fails_as_a_whole_witness :
  exists e,
    option_map fst
      (fetchAudioFeatures rate_limited_remote [1; 0; 2] ids250 stale_connection)
    = Some (Normal (Rejected e)).
Proof.
  destruct (buckets_of ids250) as [buckets | ] eqn:Hb;
    [ | vm_compute in Hb; discriminate Hb ].
  pose proof Hb as Hb'. vm_compute in Hb'. injection Hb' as <-.
  match type of Hb with
  | _ = Some ?bs =>
      let xs := eval vm_compute in
          (chunk_exchanges rate_limited_remote (trace stale_connection)
             (_accessToken stale_connection) bs) in
      match xs with
      | _ :: (?request, ?reply) :: _ =>
          destruct (fetchAudioFeatures_fails_as_a_whole rate_limited_remote
                      [1; 0; 2] ids250 stale_connection bs request reply Hb)
            as (e & He)
      end
  end.
  - vm_compute. right. left. reflexivity.
  - reflexivity.
  - exists e. rewrite He. reflexivity.
Defined.

Lemma fetchAudioFeatures_concatenates_in_chunk_order_witness :
  option_map fst
    (fetchAudioFeatures catalogue_remote [2; 0; 1] ids250 stale_connection)
  = Some (Normal (Fulfilled (map feature_of ids250))).
Proof.
  destruct (buckets_of ids250) as [buckets | ] eqn:Hb;
    [ | vm_compute in Hb; discriminate Hb ].
  pose proof Hb as Hb'. vm_compute in Hb'. injection Hb' as <-.
  match type of Hb with
  | _ = Some ?bs =>
      destruct (fetchAudioFeatures_concatenates_in_chunk_order catalogue_remote
                  [2; 0; 1] ids250 stale_connection bs
                  (map (map feature_of) bs) Hb)
        as (Hrun & _ & _ & Horder)
  end.
  - vm_compute. reflexivity.
  - rewrite Hrun, (Horder feature_of eq_refl). reflexivity.
Defined.

(** ** [tryRefresh] *)

Lemma tryRefresh_spec (remote : Remote) (w : World) :
  let request := refresh_request (refreshToken w) in
  let reply := remote (trace w) request in
  let sent := extend_trace w [Exchange request reply] in
  tryRefresh remote w =
  match settle reply with
  | Rejected e => (Normal (Rejected e), sent)
  | Fulfilled response =>
      if (status response =? 200)%Z then
        match js_prop (data response) "access_token" with
        | inl e => (Normal (Rejected e), sent)
        | inr token =>
            (Normal (Fulfilled token),
             with_token w token [Exchange request reply])
        end
      else (Normal (Rejected (ThrownResponse (status response) (data response))),
            sent)
  end.
Proof.
  cbv zeta. unfold tryRefresh, async, bind, this_refreshToken.
  rewrite axios_spec. fold (refresh_request (refreshToken w)).
  destruct (settle (remote (trace w) (refresh_request (refreshToken w))))
    as [response | e]; cbn; [ | reflexivity ].
  destruct (status response =? 200)%Z; cbn; [ | reflexivity ].
  destruct (js_prop (data response) "access_token"); reflexivity.
Qed.

(** ** The refresh token is read-only *)

Section RefreshTokenFacts.

Variable remote : Remote.

Lemma tryRefresh_refreshToken (w : World) :
  refreshToken (snd (tryRefresh remote w)) = refreshToken w.
Proof.
  rewrite tryRefresh_spec.
  destruct (settle _) as [response | e]; [ | reflexivity ].
  destruct (status response =? 200)%Z; [ | reflexivity ].
  destruct (js_prop _ _); reflexivity.
Qed.

Lemma fetchUserProfile_world (w : World) :
  snd (fetchUserProfile remote w) =
  extend_trace w
    [Exchange (fetch_request (_accessToken w) (Some "/me")
                 (with_method emptyConfig "get"))
              (remote (trace w)
                 (fetch_request (_accessToken w) (Some "/me")
                    (with_method emptyConfig "get")))].
Proof.
  unfold fetchUserProfile, async, bind. rewrite get_spec.
  destruct (settle _) as [r | e]; cbn; [ | reflexivity ].
  destruct (negb (status r =? 200)%Z); reflexivity.
Qed.

Lemma page_fetcher_refreshToken (endpoint : string) (limit offset : Z)
  (w : World) :
  refreshToken (snd (page_fetcher remote endpoint limit offset w)) =
  refreshToken w.
Proof.
  unfold page_fetcher, async, bind. rewrite get_spec.
  destruct (settle _) as [r | e]; reflexivity.
Qed.

Lemma perform_refreshToken (op : Operation) (w : World) :
  exists w', perform remote op w = Some w' /\ refreshToken w' = refreshToken w.
Proof.
  destruct op as [endpoint config | endpoint config | | | limit offset
                  | id limit offset | order ids]; cbn [perform].
  - eexists. split; [ reflexivity | ]. rewrite fetch_spec. reflexivity.
  - eexists. split; [ reflexivity | ]. rewrite get_spec. reflexivity.
  - eexists. split; [ reflexivity | ]. apply tryRefresh_refreshToken.
  - eexists. split; [ reflexivity | ]. rewrite fetchUserProfile_world.
    reflexivity.
  - eexists. split; [ reflexivity | ]. apply page_fetcher_refreshToken.
  - eexists. split; [ reflexivity | ]. apply page_fetcher_refreshToken.
  - destruct (buckets_of_total ids) as (buckets & Hb & _).
    rewrite (fetchAudioFeatures_spec remote order ids buckets w Hb).
    eexists. split; reflexivity.
Qed.

Lemma perform_all_refreshToken (ops : list Operation) :
  forall w : World,
    exists w', perform_all remote ops w = Some w' /\
               refreshToken w' = refreshToken w.
Proof.
  induction ops as [ | op ops IH]; intros w; cbn [perform_all].
  - eauto.
  - destruct (perform_refreshToken op w) as (w1 & -> & H1).
    destruct (IH w1) as (w2 & H2 & H3).
    exists w2. split; [ exact H2 | congruence ].
Qed.

End RefreshTokenFacts.

Lemma establish_refreshToken (remote : Remote) (accessToken refreshToken0 : string)
  (onProfile onToken : Callback) :
  refreshToken (snd (establish remote accessToken refreshToken0 onProfile onToken))
    = refreshToken0.
Proof.
  unfold establish, async, bind, invoke.
  pose proof (fetchUserProfile_world remote
                (new_SpotifyConnection accessToken refreshToken0 onToken)) as Hw.
  destruct (fetchUserProfile remote _) as [[[profile | e] | e] w1];
    cbn in Hw; subst w1; cbn; try reflexivity.
  destruct (onProfile profile); reflexivity.
Qed.

Lemma reestablish_refreshToken (remote : Remote) (refreshToken0 : string)
  (onProfile onToken : Callback) :
  refreshToken (snd (reestablish remote refreshToken0 onProfile onToken))
    = refreshToken0.
Proof.
  unfold reestablish, async, bind, invoke.
  pose proof (tryRefresh_refreshToken remote
                (new_SpotifyConnection "" refreshToken0 onToken)) as Hr.
  destruct (tryRefresh remote _) as [[[token | e] | e] w1]; cbn in Hr;
    cbn; try exact Hr.
  pose proof (fetchUserProfile_world remote w1) as Hw.
  destruct (fetchUserProfile remote w1) as [[[profile | e] | e] w2];
    cbn in Hw; subst w2; cbn; try exact Hr.
  destruct (onProfile profile); cbn; exact Hr.
Qed.

(** The cases of [tryRefresh] in which the reply is not an HTTP 200: the
    promise is rejected, and what is left to show is that the reply is
    indeed no HTTP 200. *)
Ltac refresh_rejected Hspec Hgeneral :=
  eexists _, _; split; [ exact Hspec | ];
  split; [ reflexivity | ]; split; [ reflexivity | ];
  split; [ intros _; split; [ eauto | reflexivity ] | ];
  split; [ intros ? [=] | ];
  split; [ | split; [ reflexivity | exact Hgeneral ] ].

(** C8.  [tryRefresh] sends one request, to the refresh endpoint, with the
    connection's refresh token as the query parameter.  When the reply is
    not an HTTP 200 the promise is rejected and the stored access token
    stays; the promise is fulfilled only on an HTTP 200, and then the stored
    access token is the [access_token] of the reply, which is also the
    result.  No operation on a connection changes its refresh token, and
    [establish] and [reestablish] hand out a connection with the refresh
    token they were given. *)
Theorem tryRefresh_replaces_access_token (remote : Remote) (w : World) :
  let request := refresh_request (refreshToken w) in
  let reply := remote (trace w) request in
  exists p w',
    tryRefresh remote w = (Normal p, w') /\
    url request =
      Some ("/api/refresh?" ++
            querystring_stringify [("refresh_token", refreshToken w)])%string /\
    trace w' = trace w ++ [Exchange request reply] /\
    (is_ok reply = false ->
       (exists e, p = Rejected e) /\ _accessToken w' = _accessToken w) /\
    (forall token, p = Fulfilled token ->
       exists d, reply = HttpReply 200 d /\
                 js_prop d "access_token" = inr token /\
                 _accessToken w' = token) /\
    (forall d token, reply = HttpReply 200 d ->
       js_prop d "access_token" = inr token ->
       p = Fulfilled token /\ _accessToken w' = token) /\
    refreshToken w' = refreshToken w /\
    (forall ops w0, exists w1,
        perform_all remote ops w0 = Some w1 /\
        refreshToken w1 = refreshToken w0) /\
    (forall accessToken0 refreshToken0 onProfile onToken,
        refreshToken
          (snd (establish remote accessToken0 refreshToken0 onProfile onToken))
          = refreshToken0 /\
        refreshToken (snd (reestablish remote refreshToken0 onProfile onToken))
          = refreshToken0).
Proof.
  cbv zeta.
  pose proof (tryRefresh_spec remote w) as Hspec. cbv zeta in Hspec.
  assert (Hgeneral :
            (forall ops w0, exists w1,
                perform_all remote ops w0 = Some w1 /\
                refreshToken w1 = refreshToken w0) /\
            (forall accessToken0 refreshToken0 onProfile onToken,
                refreshToken
                  (snd (establish remote accessToken0 refreshToken0
                          onProfile onToken))
                  = refreshToken0 /\
                refreshToken
                  (snd (reestablish remote refreshToken0 onProfile onToken))
                  = refreshToken0)).
  { split.
    - intros ops w0. apply perform_all_refreshToken.
    - intros a r onProfile onToken. split;
        [ apply establish_refreshToken | apply reestablish_refreshToken ]. }
  destruct (remote (trace w) (refresh_request (refreshToken w)))
    as [st d | ] eqn:Hreply; cbn [settle] in Hspec.
  - destruct (resolves st) eqn:Hvalid; cbn [status data] in Hspec.
    + destruct (st =? 200)%Z eqn:Hst.
      * apply Z.eqb_eq in Hst. subst st.
        destruct (js_prop d "access_token") as [e | token] eqn:Hprop;
          (eexists _, _; split; [ exact Hspec | ];
           split; [ reflexivity | ]; split; [ reflexivity | ];
           split; [ intros Hok; discriminate Hok | ]).
        -- split; [ intros token [=] | ].
           split; [ | split; [ reflexivity | exact Hgeneral ] ].
           intros d' token' [= <-] Hp. rewrite Hprop in Hp. discriminate Hp.
        -- split; [ intros token' [= <-]; exists d; auto | ].
           split; [ | split; [ reflexivity | exact Hgeneral ] ].
           intros d' token' [= <-] Hp. rewrite Hprop in Hp.
           injection Hp as <-. auto.
      * refresh_rejected Hspec Hgeneral.
        intros d' token' [= -> <-] _. discriminate Hst.
    + refresh_rejected Hspec Hgeneral.
      intros d' token' [= -> <-] _. discriminate Hvalid.
  - refresh_rejected Hspec Hgeneral.
    intros d' token' [=].
Qed.

Lemma tryRefresh_replaces_access_token_witness :
  tryRefresh stale_remote stale_connection =
  (Normal (Fulfilled (JsStr "fresh-token")),
   {| _accessToken := JsStr "fresh-token";
      refreshToken := "valid-refresh";
      onAccessTokenChange := returns;
      trace := [Exchange (refresh_request "valid-refresh")
                         (HttpReply 200 fresh_token_body)] |}).
Proof.
  destruct (tryRefresh_replaces_access_token stale_remote stale_connection)
    as (p & w' & Hrun & _ & Htrace & _ & _ & Hok & Hrt & _).
  destruct (Hok fresh_token_body (JsStr "fresh-token") eq_refl eq_refl)
    as [-> Htoken].
  rewrite Hrun. f_equal.
  transitivity (snd (tryRefresh stale_remote stale_connection)).
  - rewrite Hrun. reflexivity.
  - vm_compute. reflexivity.
Defined.

(** [tryRefresh] itself never calls [onAccessTokenChange]. *)
Lemma tryRefresh_reports_nothing (remote : Remote) (w : World) :
  token_changes_reported (trace (snd (tryRefresh remote w))) =
  token_changes_reported (trace w).
Proof.
  rewrite tryRefresh_spec.
  assert (Hsent : forall request reply,
             token_changes_reported (trace w ++ [Exchange request reply]) =
             token_changes_reported (trace w)).
  { intros request reply. unfold token_changes_reported.
    rewrite flat_map_app. cbn. apply app_nil_r. }
  destruct (settle _) as [response | e]; [ | apply Hsent ].
  destruct (status response =? 200)%Z; [ | apply Hsent ].
  destruct (js_prop _ _); apply Hsent.
Qed.

(** ** The paginated container *)

Section PagedFacts.

Variable T : Type.

Lemma fetchNext_step (f : Paged.PageFetcher T) (p : Paged.Paged T) :
  List.length (Paged.fetchedItems p) = Paged.nextOffset p ->
  List.length (Paged.fetchedItems (snd (Paged.fetchNext f p))) =
    Paged.nextOffset (snd (Paged.fetchNext f p)) /\
  match fst (Paged.fetchNext f p) with
  | inr fetched =>
      Paged.fetchedItems (snd (Paged.fetchNext f p)) =
        Paged.fetchedItems p ++ fetched /\
      Paged.nextOffset (snd (Paged.fetchNext f p)) =
        Paged.nextOffset p + List.length fetched /\
      Paged.accumulated (snd (Paged.fetchNext f p))
  | inl _ => snd (Paged.fetchNext f p) = p
  end.
Proof.
  intros Hlen. unfold Paged.fetchNext.
  destruct (Paged.isExhausted p); [ cbn [fst snd]; auto | ].
  destruct (f (Paged.pageSize p) (Paged.nextOffset p)) as [e | pg];
    [ cbn [fst snd]; auto | ].
  destruct (Paged.total_validates p pg) eqn:Hvalid; [ | cbn [fst snd]; auto ].
  apply Nat.leb_le in Hvalid.
  cbn [fst snd Paged.fetchedItems Paged.nextOffset].
  unfold Paged.accumulated, Paged.items_of.
  cbn [Paged.fetchedItems Paged.nextOffset Paged.known_total].
  rewrite length_app, Hlen.
  split; [ reflexivity | ].
  split; [ reflexivity | ].
  split; [ reflexivity | ].
  split; [ reflexivity | ].
  exists (Paged.total pg). split; [ reflexivity | exact Hvalid ].
Qed.

(** C9.  Start from a fresh container and make any sequence of [fetchNext]
    calls, whatever the fetcher answers to each.  Every successful call
    appends the items it returns and advances [nextOffset] by their number,
    and after it [items().length] equals [nextOffset], the total is known
    and [nextOffset <= total]; after every failed call the container is
    exactly what it was before the call. *)
Theorem fetchNext_accumulates (size : nat) (fetchers : list (Paged.PageFetcher T)) :
  Forall (fun call =>
            match call with
            | (before, outcome, after) =>
                match outcome with
                | inr fetched =>
                    Paged.fetchedItems after =
                      Paged.fetchedItems before ++ fetched /\
                    Paged.nextOffset after =
                      Paged.nextOffset before + List.length fetched /\
                    Paged.accumulated after
                | inl _ => after = before
                end
            end)
         (Paged.fetchNext_calls fetchers (Paged.create T size)).
Proof.
  assert (Hstart : List.length (Paged.fetchedItems (Paged.create T size)) =
                   Paged.nextOffset (Paged.create T size)) by reflexivity.
  revert Hstart. generalize (Paged.create T size).
  induction fetchers as [ | f fetchers IH]; intros p Hlen;
    cbn [Paged.fetchNext_calls]; [ constructor | ].
  destruct (fetchNext_step f p Hlen) as [Hlen' Hcall].
  destruct (Paged.fetchNext f p) as [outcome p'] eqn:Hnext.
  cbn [fst snd] in Hlen', Hcall.
  constructor.
  - exact Hcall.
  - apply IH. exact Hlen'.
Qed.

End PagedFacts.

(** Five calls on a collection of 120 items: a page, a failed request, a
    page with a total that does not validate, and two more pages. *)
Lemma fetchNext_accumulates_witness :
  Forall (fun call =>
            match call with
            | (before, outcome, after) =>
                match outcome with
                | inr fetched =>
                    Paged.fetchedItems after =
                      Paged.fetchedItems before ++ fetched /\
                    Paged.nextOffset after =
                      Paged.nextOffset before + List.length fetched /\
                    Paged.accumulated after
                | inl _ => after = before
                end
            end)
         (Paged.fetchNext_calls
            [numbered_fetcher; failing_fetcher; shrunk_fetcher;
             numbered_fetcher; numbered_fetcher]
            (Paged.create nat 50)) /\
  map (fun call => (Paged.nextOffset (snd call), Paged.known_total (snd call)))
      (Paged.fetchNext_calls
         [numbered_fetcher; failing_fetcher; shrunk_fetcher;
          numbered_fetcher; numbered_fetcher]
         (Paged.create nat 50))
  = [(50, Some 120); (50, Some 120); (50, Some 120); (100, Some 120);
     (120, Some 120)].
Proof.
  split; [ | vm_compute; reflexivity ].
  apply (fetchNext_accumulates nat 50).
Defined.

(** ** [establish] and [reestablish], in general *)

(** [reestablish] never calls [onAccessTokenChange], whatever the remote
    side answers and whatever the callbacks do. *)
Lemma reestablish_reports_nothing (remote : Remote) (refreshToken0 : string)
  (onProfile onToken : Callback) :
  token_changes_reported
    (trace (snd (reestablish remote refreshToken0 onProfile onToken))) = [].
Proof.
  unfold reestablish, async, bind, invoke.
  pose proof (tryRefresh_reports_nothing remote
                (new_SpotifyConnection "" refreshToken0 onToken)) as Hr.
  destruct (tryRefresh remote _) as [[[token | e] | e] w1]; cbn in Hr;
    cbn; try exact Hr.
  pose proof (fetchUserProfile_world remote w1) as Hw.
  assert (Hsent : forall evs,
             (forall t, ~ In (AccessTokenChange t) evs) ->
             token_changes_reported (trace w1 ++ evs) = []).
  { intros evs Hnone. unfold token_changes_reported in *.
    rewrite flat_map_app, Hr. cbn [app].
    induction evs as [ | ev evs IH]; [ reflexivity | ].
    cbn [flat_map]. rewrite IH.
    - destruct ev as [rq rp | t | profile]; try reflexivity.
      exfalso. apply (Hnone t). left. reflexivity.
    - intros t Hin. apply (Hnone t). right. exact Hin. }
  destruct (fetchUserProfile remote w1) as [[[profile | e] | e] w2];
    cbn [snd] in Hw; subst w2; cbn [fst snd await ret throw].
  - unfold log. cbn [extend_trace trace _accessToken refreshToken].
    assert (Hboth : token_changes_reported
                      ((trace w1 ++
                        [Exchange
                           (fetch_request (_accessToken w1) (Some "/me")
                              (with_method emptyConfig "get"))
                           (remote (trace w1)
                              (fetch_request (_accessToken w1) (Some "/me")
                                 (with_method emptyConfig "get")))]) ++
                       [GettingUserProfile profile]) = []).
    { rewrite <- app_assoc. apply Hsent. cbn [app].
      intros t [Hin | [Hin | []]]; discriminate Hin. }
    destruct (onProfile profile); cbn [fst snd trace]; exact Hboth.
  - cbn [extend_trace trace]. apply Hsent.
    intros t [Hin | []]. discriminate Hin.
  - cbn [extend_trace trace]. apply Hsent.
    intros t [Hin | []]. discriminate Hin.
Qed.

(* ===================================================================== *)
(** * Further properties of the connection *)
(* ===================================================================== *)

(** ** The request of [fetch] *)

Lemma obj_get_set_same {V : Type} (k : string) (v : V)
  (fields : list (string * V)) :
  obj_get k (obj_set k v fields) = Some v.
Proof.
  induction fields as [ | [k' v'] rest IH]; cbn.
  - rewrite String.eqb_refl. reflexivity.
  - destruct (String.eqb k k') eqn:Hk; cbn.
    + rewrite String.eqb_refl. reflexivity.
    + rewrite Hk. exact IH.
Qed.

Lemma obj_get_set_other {V : Type} (k k' : string) (v : V)
  (fields : list (string * V)) :
  k' <> k -> obj_get k' (obj_set k v fields) = obj_get k' fields.
Proof.
  intros Hne. apply String.eqb_neq in Hne.
  induction fields as [ | [k0 v0] rest IH]; cbn.
  - rewrite Hne. reflexivity.
  - destruct (String.eqb k k0) eqn:Hk; cbn.
    + apply String.eqb_eq in Hk. subst k0. rewrite Hne. reflexivity.
    + destruct (String.eqb k' k0); [ reflexivity | exact IH ].
Qed.

(** X1.  Whatever headers the caller's config carries, the request that
    [fetch] sends has the stored access token as its [Authorization]
    header; every other header, the method and the params are the
    caller's. *)
Theorem fetch_sends_stored_token (remote : Remote) (endpoint : option string)
  (config : FetchConfig) (w : World) (k : string) :
  k <> "Authorization" ->
  exists request,
    fetch remote endpoint config w =
      (Normal (settle (remote (trace w) request)),
       extend_trace w [Exchange request (remote (trace w) request)]) /\
    obj_get "Authorization" (headers request) = Some (Bearer (_accessToken w)) /\
    obj_get k (headers request) = obj_get k (headers config) /\
    method request = method config /\
    params request = params config.
Proof.
  intros Hk. exists (fetch_request (_accessToken w) endpoint config).
  split; [ apply fetch_spec | ].
  cbn [fetch_request headers method params].
  split; [ apply obj_get_set_same | ].
  split; [ apply obj_get_set_other; exact Hk | ].
  split; reflexivity.
Qed.

Lemma fetch_sends_stored_token_witness :
  exists request,
    snd (fetch stale_remote (Some "/me")
           {| url := None; method := Some "get";
              headers := [("Authorization", HeaderText "Basic dXNlcg==");
                          ("Accept", HeaderText "application/json")];
              params := [] |} stale_connection)
    = extend_trace stale_connection
        [Exchange request (stale_remote [] request)] /\
    obj_get "Authorization" (headers request) = Some (Bearer (JsStr "stale-token")) /\
    obj_get "Accept" (headers request) = Some (HeaderText "application/json").
Proof.
  destruct (fetch_sends_stored_token stale_remote (Some "/me")
              {| url := None; method := Some "get";
                 headers := [("Authorization", HeaderText "Basic dXNlcg==");
                             ("Accept", HeaderText "application/json")];
                 params := [] |} stale_connection "Accept")
    as (request & Hrun & Hauth & Hother & _).
  - discriminate.
  - exists request. rewrite Hrun. split; [ reflexivity | ].
    split; [ exact Hauth | exact Hother ].
Defined.

(** ** [fetchUserProfile] and the page fetchers *)

Lemma ok_resolves (st : Z) : (st =? 200)%Z = true -> resolves st = true.
Proof.
  intros Hst. apply Z.eqb_eq in Hst. subst st. reflexivity.
Qed.

(** [fetchUserProfile], by the reply to its request. *)
Lemma fetchUserProfile_spec (remote : Remote) (w : World) :
  let request := profile_request (_accessToken w) in
  let reply := remote (trace w) request in
  fetchUserProfile remote w =
  (Normal (profile_outcome reply), extend_trace w [Exchange request reply]).
Proof.
  cbv zeta. unfold fetchUserProfile, async, bind. rewrite get_spec.
  change (fetch_request (_accessToken w) (Some "/me")
            (with_method emptyConfig "get"))
    with (profile_request (_accessToken w)).
  destruct (remote (trace w) (profile_request (_accessToken w))) as [st d | ];
    cbn [settle profile_outcome]; [ | reflexivity ].
  destruct (st =? 200)%Z eqn:Hst.
  - rewrite (ok_resolves st Hst). cbn. rewrite Hst. reflexivity.
  - destruct (resolves st); cbn; [ rewrite Hst | ]; reflexivity.
Qed.

(** X2.  [fetchUserProfile] sends the one request [GET /me] with the stored
    token and changes nothing else.  Its promise is fulfilled with the body
    of an HTTP 200; for any other status with which axios resolves (another
    2xx, or the falsy status 0) it is rejected with the bare status, for
    every other status with the axios error that carries the response, and
    with an axios error without response when nothing comes back. *)
Theorem fetchUserProfile_outcome (remote : Remote) (w : World) :
  let request := profile_request (_accessToken w) in
  let reply := remote (trace w) request in
  fetchUserProfile remote w =
  (Normal (profile_outcome reply), extend_trace w [Exchange request reply]).
Proof.
  exact (fetchUserProfile_spec remote w).
Qed.

Lemma page_fetcher_spec (remote : Remote) (c : ascii) (rest : string)
  (limit offset : Z) (w : World) :
  let request := page_request (_accessToken w) (String c rest) limit offset in
  let reply := remote (trace w) request in
  page_fetcher remote (String c rest) limit offset w =
  (Normal match settle reply with
          | Fulfilled r => Fulfilled (data r)
          | Rejected e => Rejected e
          end,
   extend_trace w [Exchange request reply]).
Proof.
  cbv zeta. unfold page_fetcher, async, bind. rewrite get_spec.
  change (fetch_request (_accessToken w) (Some (String c rest))
            (with_method
               {| url := None; method := None; headers := [];
                  params := [("limit", JsNum limit); ("offset", JsNum offset)] |}
               "get"))
    with (page_request (_accessToken w) (String c rest) limit offset).
  destruct (settle _) as [r | e]; reflexivity.
Qed.

(** X3.  The fetchers behind [fetchUserPlaylists] and [fetchPlaylistTracks]
    send [GET /me/playlists], or [GET /playlists/<id>/tracks], with [limit]
    and [offset] as params and the stored token, and hand over the body of
    any 2xx reply: unlike [fetchUserProfile] they do not ask for a 200. *)
Theorem page_fetchers_accept_any_2xx (remote : Remote) (id : string)
  (limit offset : Z) (w : World) (st : Z) (d : JsVal) :
  validateStatus st = true ->
  (remote (trace w) (page_request (_accessToken w) "/me/playlists" limit offset)
     = HttpReply st d ->
   fetchUserPlaylists_fetcher remote limit offset w =
   (Normal (Fulfilled d),
    extend_trace w
      [Exchange (page_request (_accessToken w) "/me/playlists" limit offset)
                (HttpReply st d)])) /\
  (remote (trace w)
     (page_request (_accessToken w) ("/playlists/" ++ id ++ "/tracks")%string
        limit offset) = HttpReply st d ->
   fetchPlaylistTracks_fetcher remote id limit offset w =
   (Normal (Fulfilled d),
    extend_trace w
      [Exchange (page_request (_accessToken w)
                   ("/playlists/" ++ id ++ "/tracks")%string limit offset)
                (HttpReply st d)])).
Proof.
  intros Hvalid. split; intros Hreply.
  - unfold fetchUserPlaylists_fetcher.
    pose proof (page_fetcher_spec remote "/"%char "me/playlists" limit offset w)
      as Hspec.
    cbv zeta in Hspec. rewrite Hspec, Hreply. cbn [settle]. unfold resolves.
    rewrite Hvalid, orb_true_r. reflexivity.
  - unfold fetchPlaylistTracks_fetcher.
    pose proof (page_fetcher_spec remote "/"%char
                  ("playlists/" ++ id ++ "/tracks")%string limit offset w)
      as Hspec.
    cbv zeta in Hspec.
    change (String "/" ("playlists/" ++ id ++ "/tracks"))%string
      with ("/playlists/" ++ id ++ "/tracks")%string in Hspec.
    rewrite Hspec, Hreply. cbn [settle]. unfold resolves.
    rewrite Hvalid, orb_true_r. reflexivity.
Qed.

Lemma page_fetchers_accept_any_2xx_witness :
  fst (fetchUserPlaylists_fetcher no_content_remote 50 0 stale_connection)
    = Normal (Fulfilled JsNull) /\
  fst (fetchPlaylistTracks_fetcher no_content_remote "37i9dQZF1DX" 100 0
         stale_connection) = Normal (Fulfilled JsNull) /\
  fst (fetchUserProfile no_content_remote stale_connection)
    = Normal (Rejected (ThrownStatus 204)).
Proof.
  destruct (page_fetchers_accept_any_2xx no_content_remote "37i9dQZF1DX"
              50 0 stale_connection 204 JsNull eq_refl) as [Hlists _].
  destruct (page_fetchers_accept_any_2xx no_content_remote "37i9dQZF1DX"
              100 0 stale_connection 204 JsNull eq_refl) as [_ Htracks].
  rewrite (Hlists eq_refl), (Htracks eq_refl).
  repeat split.
Defined.

(** ** [reestablish] *)

(** X6.  When the refresh endpoint answers [reestablish] with an HTTP 200
    that carries an access token, that token is stored and the profile
    request that follows is sent with it.  When that request is answered by
    an HTTP 200, [onGettingUserProfile] is called once with the body, and
    [reestablish] succeeds if the callback returns and fails with what the
    callback throws otherwise; for any other answer [reestablish] fails with
    what [fetchUserProfile] failed with.  [onAccessTokenChange] is not
    called. *)
Theorem reestablish_fetches_with_refreshed_token (remote : Remote)
  (refreshToken0 : string) (onProfile onToken : Callback) (body token : JsVal) :
  remote [] (refresh_request refreshToken0) = HttpReply 200 body ->
  js_prop body "access_token" = inr token ->
  let refreshed := Exchange (refresh_request refreshToken0) (HttpReply 200 body) in
  let reply := remote [refreshed] (profile_request token) in
  let connection :=
    with_token (new_SpotifyConnection "" refreshToken0 onToken) token
      [refreshed; Exchange (profile_request token) reply] in
  reestablish remote refreshToken0 onProfile onToken =
  match profile_outcome reply with
  | Rejected e => (Normal (Rejected e), connection)
  | Fulfilled profile =>
      (Normal match onProfile profile with
              | None => Fulfilled tt
              | Some e => Rejected e
              end,
       extend_trace connection [GettingUserProfile profile])
  end.
Proof.
  intros Hreply Hprop. cbv zeta.
  unfold reestablish, async, bind. rewrite tryRefresh_spec.
  cbn [new_SpotifyConnection refreshToken trace]. rewrite Hreply.
  change (settle (HttpReply 200 body))
    with (Fulfilled {| data := body; status := 200 |}).
  cbn [status data Z.eqb Pos.eqb].
  rewrite Hprop. cbn [await ret].
  rewrite fetchUserProfile_spec.
  cbn [_accessToken trace with_token extend_trace app refreshToken
        onAccessTokenChange].
  destruct (profile_outcome _) as [profile | e]; cbn [await ret throw];
    [ | reflexivity ].
  unfold invoke, bind, log. cbn [trace _accessToken refreshToken app
                                  onAccessTokenChange].
  destruct (onProfile profile); reflexivity.
Qed.

Lemma reestablish_fetches_with_refreshed_token_witness :
  reestablish stale_remote "valid-refresh" returns returns =
    (Normal (Fulfilled tt),
     with_token (new_SpotifyConnection "" "valid-refresh" returns)
       (JsStr "fresh-token")
       [Exchange (refresh_request "valid-refresh")
                 (HttpReply 200 fresh_token_body);
        Exchange (profile_request (JsStr "fresh-token"))
                 (HttpReply 200 profile_body);
        GettingUserProfile profile_body]) /\
  reestablish stale_remote "valid-refresh" (fun _ => Some TypeError) returns =
    (Normal (Rejected TypeError),
     with_token (new_SpotifyConnection "" "valid-refresh" returns)
       (JsStr "fresh-token")
       [Exchange (refresh_request "valid-refresh")
                 (HttpReply 200 fresh_token_body);
        Exchange (profile_request (JsStr "fresh-token"))
                 (HttpReply 200 profile_body);
        GettingUserProfile profile_body]).
Proof.
  split.
  - exact (reestablish_fetches_with_refreshed_token stale_remote "valid-refresh"
             returns returns fresh_token_body (JsStr "fresh-token")
             eq_refl eq_refl).
  - exact (reestablish_fetches_with_refreshed_token stale_remote "valid-refresh"
             (fun _ => Some TypeError) returns fresh_token_body
             (JsStr "fresh-token") eq_refl eq_refl).
Defined.

(** X7.  When the refresh endpoint does not answer with an HTTP 200,
    [reestablish] fails there: the refresh request is the only request it
    sends, the profile is neither fetched nor reported, and the stored
    access token is still the empty string. *)
Theorem reestablish_stops_at_failed_refresh (remote : Remote)
  (refreshToken0 : string) (onProfile onToken : Callback) :
  is_ok (remote [] (refresh_request refreshToken0)) = false ->
  exists e,
    reestablish remote refreshToken0 onProfile onToken =
    (Normal (Rejected e),
     extend_trace (new_SpotifyConnection "" refreshToken0 onToken)
       [Exchange (refresh_request refreshToken0)
                 (remote [] (refresh_request refreshToken0))]).
Proof.
  intros Hok. unfold reestablish, async, bind. rewrite tryRefresh_spec.
  cbn [new_SpotifyConnection refreshToken trace].
  destruct (remote [] (refresh_request refreshToken0)) as [st d | ];
    cbn [settle]; [ | eexists; reflexivity ].
  cbn in Hok.
  destruct (resolves st); cbn [status data];
    [ rewrite Hok | ]; eexists; reflexivity.
Qed.

Lemma reestablish_stops_at_failed_refresh_witness :
  exists e,
    reestablish server_error_remote "valid-refresh" returns returns =
    (Normal (Rejected e),
     {| _accessToken := JsStr "";
        refreshToken := "valid-refresh";
        onAccessTokenChange := returns;
        trace := [Exchange (refresh_request "valid-refresh")
                           (HttpReply 500 JsNull)] |}).
Proof.
  exact (reestablish_stops_at_failed_refresh server_error_remote "valid-refresh"
           returns returns eq_refl).
Defined.

(** ** What the operations leave alone *)

Lemma reported_after_exchanges (tr : list Event)
  (xs : list (FetchConfig * AxiosReply)) :
  token_changes_reported (tr ++ exchanges_events xs) = token_changes_reported tr /\
  profiles_reported (tr ++ exchanges_events xs) = profiles_reported tr.
Proof.
  unfold token_changes_reported, profiles_reported.
  rewrite !flat_map_app.
  assert (Hnone : forall f : Event -> list JsVal,
             (forall rq rp, f (Exchange rq rp) = []) ->
             flat_map f (exchanges_events xs) = []).
  { intros f Hf. induction xs as [ | x xs IH]; cbn; [ reflexivity | ].
    rewrite Hf. exact IH. }
  rewrite !Hnone by reflexivity. rewrite !app_nil_r. split; reflexivity.
Qed.

(** Every operation appends exchanges to the trace and nothing else, and
    only [tryRefresh] may store another access token. *)
Lemma perform_frame (remote : Remote) (op : Operation) (w : World) :
  exists token xs,
    perform remote op w = Some (with_token w token (exchanges_events xs)) /\
    (op <> OpTryRefresh -> token = _accessToken w).
Proof.
  destruct op as [endpoint config | endpoint config | | | limit offset
                  | id limit offset | order ids]; cbn [perform].
  - rewrite fetch_spec.
    exists (_accessToken w), [(fetch_request (_accessToken w) endpoint config,
                               remote (trace w)
                                 (fetch_request (_accessToken w) endpoint config))].
    split; [ reflexivity | auto ].
  - rewrite get_spec.
    eexists (_accessToken w), [(_, _)]. split; [ reflexivity | auto ].
  - rewrite tryRefresh_spec.
    destruct (settle _) as [response | e];
      [ destruct (status response =? 200)%Z;
        [ destruct (js_prop _ _) as [e | token] | ] | ].
    + eexists (_accessToken w), [(_, _)]. split; [ reflexivity | congruence ].
    + eexists token, [(_, _)]. split; [ reflexivity | congruence ].
    + eexists (_accessToken w), [(_, _)]. split; [ reflexivity | congruence ].
    + eexists (_accessToken w), [(_, _)]. split; [ reflexivity | congruence ].
  - rewrite fetchUserProfile_spec.
    eexists (_accessToken w), [(_, _)]. split; [ reflexivity | auto ].
  - unfold fetchUserPlaylists_fetcher.
    pose proof (page_fetcher_spec remote "/"%char "me/playlists" limit offset w)
      as Hspec.
    cbv zeta in Hspec. rewrite Hspec.
    eexists (_accessToken w), [(_, _)]. split; [ reflexivity | auto ].
  - unfold fetchPlaylistTracks_fetcher.
    pose proof (page_fetcher_spec remote "/"%char
                  ("playlists/" ++ id ++ "/tracks")%string limit offset w)
      as Hspec.
    cbv zeta in Hspec.
    change (String "/" ("playlists/" ++ id ++ "/tracks"))%string
      with ("/playlists/" ++ id ++ "/tracks")%string in Hspec.
    rewrite Hspec.
    eexists (_accessToken w), [(_, _)]. split; [ reflexivity | auto ].
  - destruct (buckets_of_total ids) as (buckets & Hb & _).
    rewrite (fetchAudioFeatures_spec remote order ids buckets w Hb).
    exists (_accessToken w),
      (chunk_exchanges remote (trace w) (_accessToken w) buckets).
    split; [ reflexivity | auto ].
Qed.

(** X8.  Of all the operations on a connection only [tryRefresh] can change
    the stored access token: every other operation returns and leaves it as
    it was, whatever the remote side answers. *)
Theorem only_tryRefresh_changes_token (remote : Remote) (op : Operation)
  (w : World) :
  op <> OpTryRefresh ->
  exists w', perform remote op w = Some w' /\ _accessToken w' = _accessToken w.
Proof.
  intros Hop.
  destruct (perform_frame remote op w) as (token & xs & Hrun & Htoken).
  eexists. split; [ exact Hrun | ]. cbn. auto.
Qed.

Lemma only_tryRefresh_changes_token_witness :
  exists w',
    perform stale_remote (OpFetchAudioFeatures [] ids250) stale_connection
      = Some w' /\
    _accessToken w' = JsStr "stale-token".
Proof.
  apply (only_tryRefresh_changes_token stale_remote
           (OpFetchAudioFeatures [] ids250) stale_connection).
  discriminate.
Defined.

(** X9.  No sequence of operations on a connection ever calls
    [onAccessTokenChange] or [onGettingUserProfile]: every operation
    returns, and the calls that the trace reports are those it reported
    before. *)
Theorem operations_never_call_back (remote : Remote) (ops : list Operation) :
  forall w : World,
    exists w',
      perform_all remote ops w = Some w' /\
      token_changes_reported (trace w') = token_changes_reported (trace w) /\
      profiles_reported (trace w') = profiles_reported (trace w).
Proof.
  induction ops as [ | op ops IH]; intros w; cbn [perform_all].
  - eauto.
  - destruct (perform_frame remote op w) as (token & xs & -> & _).
    destruct (IH (with_token w token (exchanges_events xs)))
      as (w' & Hrun & Htokens & Hprofiles).
    exists w'. split; [ exact Hrun | ].
    destruct (reported_after_exchanges (trace w) xs) as [Ht Hp].
    cbn [with_token trace] in Htokens, Hprofiles.
    split; congruence.
Qed.

(** ** [tryRefresh] and the body of the reply *)

(** X10.  When the refresh endpoint answers with an HTTP 200 whose body is
    an object without [access_token], [tryRefresh] still succeeds: it stores
    [undefined] as the access token and returns it, and the next request of
    the connection is sent with that as its bearer token. *)
Theorem tryRefresh_without_access_token (remote : Remote) (w : World)
  (fields : list (string * JsVal)) :
  remote (trace w) (refresh_request (refreshToken w)) = HttpReply 200 (JsObj fields) ->
  obj_get "access_token" fields = None ->
  let refreshed :=
    with_token w JsUndefined
      [Exchange (refresh_request (refreshToken w)) (HttpReply 200 (JsObj fields))] in
  tryRefresh remote w = (Normal (Fulfilled JsUndefined), refreshed) /\
  snd (fetchUserProfile remote refreshed) =
    extend_trace refreshed
      [Exchange (profile_request JsUndefined)
                (remote (trace refreshed) (profile_request JsUndefined))].
Proof.
  intros Hreply Hmissing. cbv zeta. split.
  - rewrite tryRefresh_spec, Hreply. cbn. rewrite Hmissing. reflexivity.
  - rewrite fetchUserProfile_spec. reflexivity.
Qed.

Lemma tryRefresh_without_access_token_witness :
  tryRefresh empty_object_remote stale_connection =
  (Normal (Fulfilled JsUndefined),
   {| _accessToken := JsUndefined;
      refreshToken := "valid-refresh";
      onAccessTokenChange := returns;
      trace := [Exchange (refresh_request "valid-refresh")
                         (HttpReply 200 (JsObj []))] |}).
Proof.
  exact (proj1 (tryRefresh_without_access_token empty_object_remote
                  stale_connection [] eq_refl eq_refl)).
Defined.

(** X11.  When the refresh endpoint answers with an HTTP 200 whose body is
    [null] or [undefined], reading [access_token] throws: [tryRefresh] is
    rejected with the [TypeError] and the stored access token stays. *)
Theorem tryRefresh_rejects_empty_body (remote : Remote) (w : World) (d : JsVal) :
  d = JsNull \/ d = JsUndefined ->
  remote (trace w) (refresh_request (refreshToken w)) = HttpReply 200 d ->
  tryRefresh remote w =
  (Normal (Rejected TypeError),
   extend_trace w [Exchange (refresh_request (refreshToken w)) (HttpReply 200 d)]).
Proof.
  intros Hd Hreply. rewrite tryRefresh_spec, Hreply.
  destruct Hd as [-> | ->]; reflexivity.
Qed.

Lemma tryRefresh_rejects_empty_body_witness :
  tryRefresh null_body_remote stale_connection =
  (Normal (Rejected TypeError),
   extend_trace stale_connection
     [Exchange (refresh_request "valid-refresh") (HttpReply 200 JsNull)]).
Proof.
  exact (tryRefresh_rejects_empty_body null_body_remote stale_connection JsNull
           (or_introl eq_refl) eq_refl).
Defined.

(** X12.  An answer of the refresh endpoint with which axios resolves but
    which is no HTTP 200 (another 2xx, or the falsy status 0) makes
    [tryRefresh] throw the response itself, not an axios error; an answer
    with any other status, or none at all, rejects it with the axios error.
    In each case the stored access token stays. *)
Theorem tryRefresh_rejection_values (remote : Remote) (w : World)
  (reply : AxiosReply) :
  remote (trace w) (refresh_request (refreshToken w)) = reply ->
  is_ok reply = false ->
  tryRefresh remote w =
  (Normal (Rejected
             match reply with
             | HttpReply st d =>
                 if resolves st then ThrownResponse st d
                 else AxiosError (Some (st, d))
             | NoReply => AxiosError None
             end),
   extend_trace w [Exchange (refresh_request (refreshToken w)) reply]).
Proof.
  intros Hreply Hok. rewrite tryRefresh_spec, Hreply.
  destruct reply as [st d | ]; cbn [settle]; [ | reflexivity ].
  cbn in Hok. destruct (resolves st); cbn [status data];
    [ rewrite Hok | ]; reflexivity.
Qed.

Lemma tryRefresh_rejection_values_witness :
  tryRefresh no_content_remote stale_connection =
    (Normal (Rejected (ThrownResponse 204 JsNull)),
     extend_trace stale_connection
       [Exchange (refresh_request "valid-refresh") (HttpReply 204 JsNull)]) /\
  tryRefresh status_zero_remote stale_connection =
    (Normal (Rejected (ThrownResponse 0 JsNull)),
     extend_trace stale_connection
       [Exchange (refresh_request "valid-refresh") (HttpReply 0 JsNull)]) /\
  tryRefresh server_error_remote stale_connection =
    (Normal (Rejected (AxiosError (Some (500%Z, JsNull)))),
     extend_trace stale_connection
       [Exchange (refresh_request "valid-refresh") (HttpReply 500 JsNull)]) /\
  tryRefresh offline_remote stale_connection =
    (Normal (Rejected (AxiosError None)),
     extend_trace stale_connection
       [Exchange (refresh_request "valid-refresh") NoReply]).
Proof.
  exact (conj
           (tryRefresh_rejection_values no_content_remote stale_connection
              (HttpReply 204 JsNull) eq_refl eq_refl)
        (conj
           (tryRefresh_rejection_values status_zero_remote stale_connection
              (HttpReply 0 JsNull) eq_refl eq_refl)
        (conj
           (tryRefresh_rejection_values server_error_remote stale_connection
              (HttpReply 500 JsNull) eq_refl eq_refl)
           (tryRefresh_rejection_values offline_remote stale_connection
              NoReply eq_refl eq_refl)))).
Defined.

(** ** More on the buckets *)

Lemma buckets_of_shape (ids : list string) :
  ids <> [] ->
  let n := List.length ids in
  let chunkCount := ceil_div n 100 in
  let size := ceil_div n chunkCount in
  exists buckets,
    buckets_of ids = Some buckets /\
    List.concat buckets = ids /\
    map (@List.length string) buckets =
      repeat size (chunkCount - 1) ++ [n - (chunkCount - 1) * size].
Proof.
  intros Hne n chunkCount size.
  assert (Hn : 1 <= n) by (subst n; destruct ids; [ congruence | cbn; lia ]).
  destruct (bucket_arithmetic n Hn) as (Hc & Hs & Hfull & Hcover & Hdiv).
  fold chunkCount in Hc, Hs, Hfull, Hcover, Hdiv.
  fold size in Hs, Hfull, Hcover, Hdiv.
  destruct (bucket_loop_spec ids size (proj1 Hs) n 0 [])
    as (bs & Hrun & Hcat & Hlen); [ lia | ].
  exists bs. split; [ | split; [ exact Hcat | ] ].
  - unfold buckets_of. rewrite (bucketSize_of_nonempty ids Hne). exact Hrun.
  - rewrite Hlen. fold n. rewrite Nat.sub_0_r.
    destruct n as [ | n']; [ lia | ].
    unfold bucket_sizes.
    replace (n' / size) with (chunkCount - 1)
      by (rewrite <- Hdiv; f_equal; lia).
    reflexivity.
Qed.

(** The number of buckets, for every list of ids, and their sizes. *)
Lemma buckets_of_count (ids : list string) :
  exists buckets,
    buckets_of ids = Some buckets /\
    List.length buckets = ceil_div (List.length ids) 100 /\
    Forall (fun b => 1 <= List.length b <= 100) buckets.
Proof.
  destruct (Nat.eq_dec (List.length ids) 0) as [Hzero | Hpos].
  - apply length_zero_iff_nil in Hzero. subst ids.
    exists []. repeat split. constructor.
  - assert (Hne : ids <> []) by (intros ->; apply Hpos; reflexivity).
    assert (Hn : 1 <= List.length ids) by lia.
    destruct (buckets_of_shape _ Hne) as (buckets & Hb & _ & Hsizes).
    destruct (bucket_arithmetic _ Hn) as (Hc & Hs & Hfull & Hcover & _).
    cbv zeta in Hsizes.
    exists buckets. split; [ exact Hb | split ].
    + rewrite <- (length_map (@List.length string)), Hsizes.
      rewrite length_app, repeat_length.
      change (List.length [List.length ids -
                (ceil_div (List.length ids) 100 - 1) *
                ceil_div (List.length ids) (ceil_div (List.length ids) 100)])
        with 1.
      lia.
    + apply (Forall_map (@List.length string) (fun s => 1 <= s <= 100)).
      rewrite Hsizes. apply Forall_app. split.
      * apply Forall_forall. intros s Hs'. apply repeat_spec in Hs'. lia.
      * constructor; [ nia | constructor ].
Qed.

Lemma requests_sent_exchanges (tr : list Event)
  (xs : list (FetchConfig * AxiosReply)) :
  requests_sent (tr ++ exchanges_events xs) = requests_sent tr + List.length xs.
Proof.
  unfold requests_sent, exchanges_events. rewrite filter_app, length_app. f_equal.
  induction xs as [ | x xs IH]; cbn; [ | rewrite IH ]; reflexivity.
Qed.

Lemma chunk_exchanges_length (remote : Remote) (tr : list Event) (token : JsVal)
  (buckets : list (list string)) :
  List.length (chunk_exchanges remote tr token buckets) = List.length buckets.
Proof.
  rewrite <- (length_map fst), chunk_exchanges_requests. apply length_map.
Qed.

(** X13.  For every list of [n] ids, [fetchAudioFeatures] returns after
    sending exactly [ceil(n / 100)] requests, one per bucket and in bucket
    order, each naming at least one and at most 100 ids, all with the token
    that was stored when it was called; it leaves that token in place. *)
Theorem fetchAudioFeatures_request_count (remote : Remote) (order : list nat)
  (ids : list string) (w : World) :
  exists p buckets xs,
    fetchAudioFeatures remote order ids w =
      Some (Normal p, extend_trace w (exchanges_events xs)) /\
    map fst xs = map (bucket_request (_accessToken w)) buckets /\
    List.concat buckets = ids /\
    Forall (fun b => 1 <= List.length b <= 100) buckets /\
    requests_sent (trace w ++ exchanges_events xs) =
      requests_sent (trace w) + ceil_div (List.length ids) 100.
Proof.
  destruct (buckets_of_count ids) as (buckets & Hb & Hcount & Hsizes).
  destruct (buckets_of_total ids) as (buckets' & Hb' & Hcat).
  rewrite Hb in Hb'. injection Hb' as <-.
  eexists _, buckets, (chunk_exchanges remote (trace w) (_accessToken w) buckets).
  split; [ apply (fetchAudioFeatures_spec remote order ids buckets w Hb) | ].
  split; [ apply chunk_exchanges_requests | ].
  split; [ exact Hcat | split; [ exact Hsizes | ] ].
  rewrite requests_sent_exchanges, chunk_exchanges_length, Hcount. reflexivity.
Qed.

Lemma first_rejection_single {A : Type} (order : list nat) (e : Thrown) :
  first_rejection (settled_in order [@Rejected A e]) = Some e.
Proof.
  unfold settled_in. induction order as [ | i order IH]; [ reflexivity | ].
  cbn [flat_map]. destruct i as [ | i]; cbn.
  - reflexivity.
  - destruct i; exact IH.
Qed.

Lemma Promise_all_single {A : Type} (order : list nat) (p : Promise A) :
  Promise_all order [p] =
  match p with
  | Fulfilled a => Fulfilled [a]
  | Rejected e => Rejected e
  end.
Proof.
  destruct p as [a | e].
  - apply (Promise_all_fulfilled order [a]).
  - unfold Promise_all. rewrite first_rejection_single. reflexivity.
Qed.

(** X14.  Up to 100 ids travel in a single request: for between 1 and 100
    ids the only bucket is the list itself, so [fetchAudioFeatures] sends
    one request naming all of them and its promise settles as that request
    does. *)
Theorem fetchAudioFeatures_single_request (remote : Remote) (order : list nat)
  (ids : list string) (w : World) :
  1 <= List.length ids <= 100 ->
  let request := bucket_request (_accessToken w) ids in
  let reply := remote (trace w) request in
  buckets_of ids = Some [ids] /\
  fetchAudioFeatures remote order ids w =
  Some (Normal match bucket_outcome reply with
               | Fulfilled v => Fulfilled (flat [v])
               | Rejected e => Rejected e
               end,
        extend_trace w [Exchange request reply]).
Proof.
  intros Hn. cbv zeta.
  assert (Hne : ids <> []) by (destruct ids; [ cbn in Hn; lia | congruence ]).
  destruct (buckets_of_shape ids Hne) as (buckets & Hb & Hcat & Hsizes).
  cbv zeta in Hsizes.
  assert (Hc : ceil_div (List.length ids) 100 = 1).
  { unfold ceil_div. symmetry.
    apply (Nat.div_unique _ 100 1 (List.length ids - 1)); lia. }
  rewrite Hc in Hsizes. cbn [Nat.sub repeat app] in Hsizes.
  assert (Hone : buckets = [ids]).
  { destruct buckets as [ | b [ | b' rest]]; try discriminate Hsizes.
    cbn in Hcat. rewrite app_nil_r in Hcat. subst b. reflexivity. }
  subst buckets. split; [ exact Hb | ].
  rewrite (fetchAudioFeatures_spec remote order ids [ids] w Hb).
  cbn [chunk_exchanges map snd exchanges_events fst].
  rewrite Promise_all_single.
  destruct (bucket_outcome _); reflexivity.
Qed.

Lemma fetchAudioFeatures_single_request_witness :
  fetchAudioFeatures catalogue_remote [0] ["4uLU6hMCjMI75M1A2tKUQC"; "1301WleyT98MSxVHPZCA6M"]
    stale_connection =
  Some (Normal (Fulfilled [feature_of "4uLU6hMCjMI75M1A2tKUQC";
                            feature_of "1301WleyT98MSxVHPZCA6M"]),
        extend_trace stale_connection
          [Exchange
             (bucket_request (JsStr "stale-token")
                ["4uLU6hMCjMI75M1A2tKUQC"; "1301WleyT98MSxVHPZCA6M"])
             (HttpReply 200
                (JsObj [("audio_features",
                         JsArr [feature_of "4uLU6hMCjMI75M1A2tKUQC";
                                feature_of "1301WleyT98MSxVHPZCA6M"])]))]).
Proof.
  destruct (fetchAudioFeatures_single_request catalogue_remote [0]
              ["4uLU6hMCjMI75M1A2tKUQC"; "1301WleyT98MSxVHPZCA6M"] stale_connection)
    as [_ Hrun].
  - cbn. lia.
  - rewrite Hrun. vm_compute. reflexivity.
Defined.

(** X15.  When the number of ids is a multiple of 100, every bucket holds
    exactly 100 ids. *)
Theorem buckets_of_full_hundreds (ids : list string) (k : nat) :
  1 <= k ->
  List.length ids = 100 * k ->
  exists buckets,
    buckets_of ids = Some buckets /\
    List.concat buckets = ids /\
    map (@List.length string) buckets = repeat 100 k.
Proof.
  intros Hk Hn.
  assert (Hne : ids <> []) by (intros ->; cbn in Hn; lia).
  destruct (buckets_of_shape ids Hne) as (buckets & Hb & Hcat & Hsizes).
  cbv zeta in Hsizes.
  assert (Hc : ceil_div (List.length ids) 100 = k).
  { unfold ceil_div. symmetry. apply (Nat.div_unique _ 100 k 99); lia. }
  assert (Hs : ceil_div (List.length ids) k = 100).
  { unfold ceil_div. symmetry. apply (Nat.div_unique _ k 100 (k - 1)); nia. }
  rewrite Hc, Hs in Hsizes.
  exists buckets. split; [ exact Hb | split; [ exact Hcat | ] ].
  rewrite Hsizes.
  replace (List.length ids - (k - 1) * 100) with 100 by nia.
  rewrite <- repeat_cons. destruct k as [ | k']; [ lia | ].
  cbn [repeat]. do 2 f_equal. lia.
Qed.

Lemma buckets_of_full_hundreds_witness :
  exists buckets,
    buckets_of (firstn 200 ids250) = Some buckets /\
    List.concat buckets = firstn 200 ids250 /\
    map (@List.length string) buckets = [100; 100].
Proof.
  apply (buckets_of_full_hundreds (firstn 200 ids250) 2).
  - lia.
  - vm_compute. reflexivity.
Defined.

(** X16.  The buckets are nearly equal: with [chunkCount = ceil(n / 100)]
    and [size = ceil(n / chunkCount)], no bucket holds more than [size]
    ids and none holds fewer than [size - (chunkCount - 1)]. *)
Theorem buckets_of_nearly_equal (ids : list string) :
  ids <> [] ->
  let n := List.length ids in
  let chunkCount := ceil_div n 100 in
  let size := ceil_div n chunkCount in
  exists buckets,
    buckets_of ids = Some buckets /\
    Forall (fun b => size <= List.length b + (chunkCount - 1) /\
                     List.length b <= size) buckets.
Proof.
  intros Hne n chunkCount size.
  assert (Hn : 1 <= n) by (subst n; destruct ids; [ congruence | cbn; lia ]).
  destruct (buckets_of_shape ids Hne) as (buckets & Hb & _ & Hsizes).
  cbv zeta in Hsizes. fold n in Hsizes. fold chunkCount in Hsizes.
  fold size in Hsizes.
  destruct (bucket_arithmetic n Hn) as (Hc & Hs & Hfull & Hcover & _).
  fold chunkCount in Hc, Hs, Hfull, Hcover. fold size in Hs, Hfull, Hcover.
  destruct (ceil_div_bounds n chunkCount Hc) as [_ Hupper]. fold size in Hupper.
  exists buckets. split; [ exact Hb | ].
  apply (Forall_map (@List.length string)
           (fun s => size <= s + (chunkCount - 1) /\ s <= size)).
  rewrite Hsizes. apply Forall_app. split.
  - apply Forall_forall. intros s Hs'. apply repeat_spec in Hs'. lia.
  - constructor; [ nia | constructor ].
Qed.

Lemma buckets_of_nearly_equal_witness :
  ids250 <> [] /\
  exists buckets,
    buckets_of ids250 = Some buckets /\
    Forall (fun b => 84 <= List.length b + 2 /\ List.length b <= 84) buckets.
Proof.
  assert (Hne : ids250 <> []) by (intros H; vm_compute in H; discriminate H).
  split; [ exact Hne | ].
  exact (buckets_of_nearly_equal ids250 Hne).
Defined.

(** ** What the chunks' replies carry *)

Lemma bucket_outcome_value (reply : AxiosReply) (v : JsVal) :
  chunk_value reply = Some v -> bucket_outcome reply = Fulfilled v.
Proof.
  destruct reply as [st d | ]; cbn; [ | discriminate ].
  destruct (st =? 200)%Z eqn:Hst; [ | discriminate ].
  apply Z.eqb_eq in Hst. subst st.
  unfold bucket_outcome. cbn.
  destruct (js_prop d "audio_features") as [e | v']; [ discriminate | ].
  intros [= ->]. reflexivity.
Qed.

(** X17.  [fetchAudioFeatures] does not check what [audio_features] is.
    When every chunk is answered by an HTTP 200 with a body that can be
    read, the result is [flat()] of what the chunks carry: arrays are
    spliced in, and anything else, [undefined] for a body without
    [audio_features] included, becomes one element of the result. *)
Theorem fetchAudioFeatures_flattens_values
  (remote : Remote) (order : list nat) (ids : list string) (w : World)
  (buckets : list (list string)) (values : list JsVal) :
  buckets_of ids = Some buckets ->
  map (fun x => chunk_value (snd x))
      (chunk_exchanges remote (trace w) (_accessToken w) buckets)
    = map Some values ->
  fetchAudioFeatures remote order ids w =
    Some (Normal (Fulfilled (flat values)),
          extend_trace w
            (exchanges_events
               (chunk_exchanges remote (trace w) (_accessToken w) buckets))).
Proof.
  intros Hb Hvalues.
  rewrite (fetchAudioFeatures_spec remote order ids buckets w Hb).
  assert (Hout : map (fun x => bucket_outcome (snd x))
                   (chunk_exchanges remote (trace w) (_accessToken w) buckets)
                 = map Fulfilled values).
  { revert Hvalues.
    generalize (chunk_exchanges remote (trace w) (_accessToken w) buckets).
    intros xs. revert values.
    induction xs as [ | x xs IH]; intros [ | v values]; cbn;
      try discriminate; [ reflexivity | ].
    intros [= Hv Hrest].
    rewrite (bucket_outcome_value _ _ Hv), (IH _ Hrest). reflexivity. }
  rewrite Hout, Promise_all_fulfilled. reflexivity.
Qed.

Lemma fetchAudioFeatures_flattens_values_witness :
  option_map fst
    (fetchAudioFeatures empty_object_remote [0; 1; 2] ids250 stale_connection)
  = Some (Normal (Fulfilled [JsUndefined; JsUndefined; JsUndefined])).
Proof.
  destruct (buckets_of ids250) as [buckets | ] eqn:Hb;
    [ | vm_compute in Hb; discriminate Hb ].
  pose proof Hb as Hb'. vm_compute in Hb'. injection Hb' as <-.
  match type of Hb with
  | _ = Some ?bs =>
      rewrite (fetchAudioFeatures_flattens_values empty_object_remote [0; 1; 2]
                 ids250 stale_connection bs
                 [JsUndefined; JsUndefined; JsUndefined] Hb)
  end.
  - reflexivity.
  - vm_compute. reflexivity.
Defined.

(** X18.  An HTTP 200 is not enough: when the body of any one chunk's reply
    is [null] or [undefined], reading [audio_features] throws and the
    promise of [fetchAudioFeatures] is rejected, whatever the other chunks
    returned. *)
Theorem fetchAudioFeatures_rejects_empty_body
  (remote : Remote) (order : list nat) (ids : list string) (w : World)
  (buckets : list (list string)) (request : FetchConfig) (d : JsVal) :
  buckets_of ids = Some buckets ->
  In (request, HttpReply 200 d)
     (chunk_exchanges remote (trace w) (_accessToken w) buckets) ->
  d = JsNull \/ d = JsUndefined ->
  exists e,
    fetchAudioFeatures remote order ids w =
    Some (Normal (Rejected e),
          extend_trace w
            (exchanges_events
               (chunk_exchanges remote (trace w) (_accessToken w) buckets))).
Proof.
  intros Hb Hin Hd.
  rewrite (fetchAudioFeatures_spec remote order ids buckets w Hb).
  destruct (Promise_all_rejected order
              (map (fun x => bucket_outcome (snd x))
                 (chunk_exchanges remote (trace w) (_accessToken w) buckets))
              TypeError) as (e' & ->).
  - apply in_map_iff. exists (request, HttpReply 200 d).
    split; [ | exact Hin ].
    destruct Hd as [-> | ->]; reflexivity.
  - exists e'. reflexivity.
Qed.

Lemma fetchAudioFeatures_rejects_empty_body_witness :
  exists e,
    option_map fst
      (fetchAudioFeatures null_body_remote [] ["4uLU6hMCjMI75M1A2tKUQC"]
         stale_connection)
    = Some (Normal (Rejected e)).
Proof.
  destruct (fetchAudioFeatures_rejects_empty_body null_body_remote []
              ["4uLU6hMCjMI75M1A2tKUQC"] stale_connection
              [["4uLU6hMCjMI75M1A2tKUQC"]]
              (bucket_request (JsStr "stale-token") ["4uLU6hMCjMI75M1A2tKUQC"])
              JsNull eq_refl) as (e & He).
  - left. reflexivity.
  - left. reflexivity.
  - exists e. rewrite He. reflexivity.
Defined.

(** ** The earlier revision: [verify] *)

Lemma earlier_fetchUserProfile_spec (remote : Remote) (w : World) :
  let request := profile_request (_accessToken w) in
  let reply := remote (trace w) request in
  Earlier.fetchUserProfile remote w =
  (Normal (profile_outcome reply), extend_trace w [Exchange request reply]).
Proof.
  cbv zeta.
  unfold Earlier.fetchUserProfile, Earlier.get, Earlier.fetch,
    async_returning_promise, async, bind, accessToken.
  rewrite axios_spec.
  change {| url := Some (apiRoot ++ "/me")%string;
            method := method (with_method emptyConfig "get");
            headers := obj_set "Authorization" (Bearer (_accessToken w))
                         (headers (with_method emptyConfig "get"));
            params := params (with_method emptyConfig "get") |}
    with (profile_request (_accessToken w)).
  destruct (remote (trace w) (profile_request (_accessToken w))) as [st d | ];
    cbn [settle profile_outcome await]; [ | reflexivity ].
  destruct (st =? 200)%Z eqn:Hst.
  - rewrite (ok_resolves st Hst). cbn. rewrite Hst. reflexivity.
  - destruct (resolves st); cbn; [ rewrite Hst | ]; reflexivity.
Qed.

Lemma unauthorized_is_invalid (st : Z) :
  (st =? 401)%Z = true -> resolves st = false /\ (st =? 200)%Z = false.
Proof.
  intros Hst. apply Z.eqb_eq in Hst. subst st. split; reflexivity.
Qed.

Ltac normalize_worlds :=
  unfold extend_trace, with_token;
  cbn [trace _accessToken refreshToken onAccessTokenChange];
  rewrite <- ?app_assoc; cbn [app].

(** All of [verify], by the replies to its requests and by what the
    caller's callback does. *)
Lemma verify_spec (remote : Remote) (onToken : Callback) (w : World) :
  let request1 := profile_request (_accessToken w) in
  let reply1 := remote (trace w) request1 in
  let request2 := refresh_request (refreshToken w) in
  let reply2 := remote (trace w ++ [Exchange request1 reply1]) request2 in
  let refreshed := [Exchange request1 reply1; Exchange request2 reply2] in
  Earlier.verify remote onToken w =
  match reply1 with
  | NoReply =>
      (Normal (Rejected TypeError), extend_trace w [Exchange request1 reply1])
  | HttpReply st1 d1 =>
      if (st1 =? 401)%Z then
        match reply2 with
        | NoReply => (Normal (Rejected (AxiosError None)), extend_trace w refreshed)
        | HttpReply st2 d2 =>
            if (st2 =? 200)%Z then
              match js_prop d2 "access_token" with
              | inl e => (Normal (Rejected e), extend_trace w refreshed)
              | inr token =>
                  let reported := refreshed ++ [AccessTokenChange token] in
                  match onToken token with
                  | Some e => (Normal (Rejected e), with_token w token reported)
                  | None =>
                      let reply3 :=
                        remote (trace w ++ reported) (profile_request token) in
                      (Normal (profile_outcome reply3),
                       with_token w token
                         (reported ++ [Exchange (profile_request token) reply3]))
                  end
              end
            else if resolves st2
                 then (Normal (Rejected (ThrownStatus st2)), extend_trace w refreshed)
                 else (Normal (Rejected (AxiosError (Some (st2, d2)))),
                       extend_trace w refreshed)
        end
      else (Normal (profile_outcome reply1), extend_trace w [Exchange request1 reply1])
  end.
Proof.
  cbv zeta. unfold Earlier.verify, async, try_catch, bind.
  rewrite earlier_fetchUserProfile_spec.
  destruct (remote (trace w) (profile_request (_accessToken w)))
    as [st1 d1 | ] eqn:Hreply1; [ | reflexivity ].
  cbn [profile_outcome].
  destruct (st1 =? 401)%Z eqn:H401.
  - destruct (unauthorized_is_invalid st1 H401) as [Hinvalid Hnot200].
    rewrite Hnot200, Hinvalid.
    cbn [await throw is_unauthorized ret]. rewrite H401.
    unfold this_refreshToken. rewrite axios_spec.
    cbn [extend_trace trace refreshToken].
    fold (refresh_request (refreshToken w)).
    destruct (remote ((trace w ++
                       [Exchange (profile_request (_accessToken w))
                                 (HttpReply st1 d1)]))
                (refresh_request (refreshToken w))) as [st2 d2 | ];
      cbn [settle await throw ret]; [ | normalize_worlds; reflexivity ].
    destruct (st2 =? 200)%Z eqn:H200.
    + rewrite (ok_resolves st2 H200). cbn [await ret status data]. rewrite H200.
      destruct (js_prop d2 "access_token") as [e | token];
        cbn [of_sum throw ret]; [ normalize_worlds; reflexivity | ].
      unfold set_accessToken, accessToken, invoke, bind, log.
      cbn [trace _accessToken refreshToken onAccessTokenChange].
      destruct (onToken token) as [e | ]; cbn [throw ret].
      * normalize_worlds. reflexivity.
      * rewrite earlier_fetchUserProfile_spec.
        cbn [trace _accessToken refreshToken onAccessTokenChange].
        normalize_worlds.
        destruct (profile_outcome _); reflexivity.
    + destruct (resolves st2); cbn [await ret throw status data];
        [ rewrite H200; cbn [throw] | ]; normalize_worlds; reflexivity.
  - destruct (st1 =? 200)%Z; [ reflexivity | ].
    destruct (resolves st1); cbn [await throw is_unauthorized ret];
      [ | rewrite H401 ]; reflexivity.
Qed.

Lemma requests_sent_app (tr evs : list Event) :
  requests_sent (tr ++ evs) = requests_sent tr + requests_sent evs.
Proof.
  unfold requests_sent. rewrite filter_app. apply length_app.
Qed.

Lemma refresh_attempts_app (tr evs : list Event) :
  refresh_attempts (tr ++ evs) = refresh_attempts tr + refresh_attempts evs.
Proof.
  unfold refresh_attempts. rewrite filter_app. apply length_app.
Qed.

Lemma token_changes_reported_app (tr evs : list Event) :
  token_changes_reported (tr ++ evs) =
  token_changes_reported tr ++ token_changes_reported evs.
Proof.
  unfold token_changes_reported. apply flat_map_app.
Qed.

Lemma prefix_append (s t : string) : String.prefix s (s ++ t)%string = true.
Proof.
  induction s as [ | c s IH]; cbn [String.prefix String.append].
  - destruct t; reflexivity.
  - destruct (ascii_dec c c) as [_ | Hne]; [ exact IH | congruence ].
Qed.

Lemma refresh_request_is_refresh (rt : string) :
  is_refresh_request (refresh_request rt) = true.
Proof.
  unfold is_refresh_request, refresh_request. cbn [url]. apply prefix_append.
Qed.

Lemma profile_request_is_no_refresh (token : JsVal) :
  is_refresh_request (profile_request token) = false.
Proof. reflexivity. Qed.

Ltac count_events :=
  cbn [snd extend_trace with_token trace refreshToken];
  rewrite requests_sent_app, refresh_attempts_app, token_changes_reported_app,
    length_app;
  unfold requests_sent, refresh_attempts, token_changes_reported;
  cbn [filter flat_map app];
  rewrite ?refresh_request_is_refresh, ?profile_request_is_no_refresh;
  cbn [List.length app];
  repeat split; first [ lia | reflexivity ].

(** X19.  [verify] is bounded, whatever the remote side answers and
    whatever the callback does: it sends at most three requests, at most one
    of them to the refresh endpoint, calls [onAccessTokenChange] at most once
    and never touches the refresh token. *)
Theorem verify_refreshes_at_most_once (remote : Remote) (onToken : Callback)
  (w : World) :
  let w' := snd (Earlier.verify remote onToken w) in
  requests_sent (trace w') <= requests_sent (trace w) + 3 /\
  refresh_attempts (trace w') <= refresh_attempts (trace w) + 1 /\
  List.length (token_changes_reported (trace w')) <=
    List.length (token_changes_reported (trace w)) + 1 /\
  refreshToken w' = refreshToken w.
Proof.
  cbv zeta. rewrite verify_spec.
  destruct (remote (trace w) (profile_request (_accessToken w)))
    as [st1 d1 | ]; [ | count_events ].
  destruct (st1 =? 401)%Z; [ | count_events ].
  destruct (remote (trace w ++
                     [Exchange (profile_request (_accessToken w))
                               (HttpReply st1 d1)])
              (refresh_request (refreshToken w))) as [st2 d2 | ];
    [ | count_events ].
  destruct (st2 =? 200)%Z;
    [ destruct (js_prop d2 "access_token") as [e | token];
      [ | destruct (onToken token) ]
    | destruct (resolves st2) ];
    count_events.
Qed.

(** X20.  When the profile request of [verify] is answered with a 401 and
    the refresh endpoint then answers with an HTTP 200 that carries an
    access token, [verify] stores that token and calls [onAccessTokenChange]
    once with it.  If the callback returns, the profile request is sent once
    more, now with the new token, and [verify] settles as this second request
    does, also when it is answered with a 401 again; if the callback
    throws, [verify] is rejected with what it threw and sends nothing
    more. *)
Theorem verify_refreshes_and_retries (remote : Remote) (onToken : Callback)
  (w : World) (d1 d2 token : JsVal) :
  let request1 := profile_request (_accessToken w) in
  let request2 := refresh_request (refreshToken w) in
  let reported :=
    [Exchange request1 (HttpReply 401 d1); Exchange request2 (HttpReply 200 d2);
     AccessTokenChange token] in
  remote (trace w) request1 = HttpReply 401 d1 ->
  remote (trace w ++ [Exchange request1 (HttpReply 401 d1)]) request2
    = HttpReply 200 d2 ->
  js_prop d2 "access_token" = inr token ->
  Earlier.verify remote onToken w =
  match onToken token with
  | Some e => (Normal (Rejected e), with_token w token reported)
  | None =>
      (Normal (profile_outcome
                 (remote (trace w ++ reported) (profile_request token))),
       with_token w token
         (reported ++
          [Exchange (profile_request token)
                    (remote (trace w ++ reported) (profile_request token))]))
  end.
Proof.
  cbv zeta. intros Hreply1 Hreply2 Hprop.
  rewrite verify_spec. cbv zeta. rewrite Hreply1.
  cbn [Z.eqb Pos.eqb]. rewrite Hreply2. cbn [Z.eqb Pos.eqb].
  rewrite Hprop. reflexivity.
Qed.

Lemma verify_refreshes_and_retries_witness :
  Earlier.verify stale_remote returns stale_connection =
    (Normal (Fulfilled profile_body),
     with_token stale_connection (JsStr "fresh-token")
       [Exchange (profile_request (JsStr "stale-token")) (HttpReply 401 expired_body);
        Exchange (refresh_request "valid-refresh") (HttpReply 200 fresh_token_body);
        AccessTokenChange (JsStr "fresh-token");
        Exchange (profile_request (JsStr "fresh-token")) (HttpReply 200 profile_body)]) /\
  Earlier.verify always_unauthorized returns stale_connection =
    (Normal (Rejected (AxiosError (Some (401%Z, expired_body)))),
     with_token stale_connection (JsStr "fresh-token")
       [Exchange (profile_request (JsStr "stale-token")) (HttpReply 401 expired_body);
        Exchange (refresh_request "valid-refresh") (HttpReply 200 fresh_token_body);
        AccessTokenChange (JsStr "fresh-token");
        Exchange (profile_request (JsStr "fresh-token")) (HttpReply 401 expired_body)]) /\
  Earlier.verify stale_remote (fun _ => Some TypeError) stale_connection =
    (Normal (Rejected TypeError),
     with_token stale_connection (JsStr "fresh-token")
       [Exchange (profile_request (JsStr "stale-token")) (HttpReply 401 expired_body);
        Exchange (refresh_request "valid-refresh") (HttpReply 200 fresh_token_body);
        AccessTokenChange (JsStr "fresh-token")]).
Proof.
  exact (conj
           (verify_refreshes_and_retries stale_remote returns stale_connection
              expired_body fresh_token_body (JsStr "fresh-token")
              eq_refl eq_refl eq_refl)
        (conj
           (verify_refreshes_and_retries always_unauthorized returns
              stale_connection expired_body fresh_token_body
              (JsStr "fresh-token") eq_refl eq_refl eq_refl)
           (verify_refreshes_and_retries stale_remote (fun _ => Some TypeError)
              stale_connection expired_body fresh_token_body
              (JsStr "fresh-token") eq_refl eq_refl eq_refl))).
Defined.

(** X21.  When nothing comes back for the profile request, the [catch]
    clause of [verify] reads [error.response.status] of an error without
    response: [verify] is rejected with that [TypeError], not with the
    transport error, and no refresh is attempted. *)
Theorem verify_masks_transport_failure (remote : Remote) (onToken : Callback)
  (w : World) :
  remote (trace w) (profile_request (_accessToken w)) = NoReply ->
  Earlier.verify remote onToken w =
  (Normal (Rejected TypeError),
   extend_trace w [Exchange (profile_request (_accessToken w)) NoReply]).
Proof.
  intros Hreply. rewrite verify_spec. cbv zeta. rewrite Hreply. reflexivity.
Qed.

Lemma verify_masks_transport_failure_witness :
  Earlier.verify offline_remote returns stale_connection =
  (Normal (Rejected TypeError),
   extend_trace stale_connection
     [Exchange (profile_request (JsStr "stale-token")) NoReply]).
Proof.
  exact (verify_masks_transport_failure offline_remote returns stale_connection
           eq_refl).
Defined.

(** X22.  Only a 401 makes [verify] refresh.  For any other answer to the
    profile request it sends nothing more and settles as [fetchUserProfile]
    does: fulfilled with the body of a 200, rejected with the bare status
    for any other status with which axios resolves (another 2xx, or the
    falsy status 0), and with the axios error for every other status. *)
Theorem verify_refreshes_only_on_401 (remote : Remote) (onToken : Callback)
  (w : World) (st : Z) (d : JsVal) :
  st <> 401%Z ->
  remote (trace w) (profile_request (_accessToken w)) = HttpReply st d ->
  Earlier.verify remote onToken w =
  (Normal (if (st =? 200)%Z then Fulfilled d
           else if resolves st then Rejected (ThrownStatus st)
           else Rejected (AxiosError (Some (st, d)))),
   extend_trace w [Exchange (profile_request (_accessToken w)) (HttpReply st d)]).
Proof.
  intros Hst Hreply. rewrite verify_spec. cbv zeta. rewrite Hreply.
  apply Z.eqb_neq in Hst. rewrite Hst. reflexivity.
Qed.

Lemma verify_refreshes_only_on_401_witness :
  Earlier.verify server_error_remote returns stale_connection =
    (Normal (Rejected (AxiosError (Some (500%Z, JsNull)))),
     extend_trace stale_connection
       [Exchange (profile_request (JsStr "stale-token")) (HttpReply 500 JsNull)]) /\
  Earlier.verify status_zero_remote returns stale_connection =
    (Normal (Rejected (ThrownStatus 0)),
     extend_trace stale_connection
       [Exchange (profile_request (JsStr "stale-token")) (HttpReply 0 JsNull)]).
Proof.
  split.
  - refine (verify_refreshes_only_on_401 server_error_remote returns
              stale_connection 500 JsNull _ eq_refl).
    discriminate.
  - refine (verify_refreshes_only_on_401 status_zero_remote returns
              stale_connection 0 JsNull _ eq_refl).
    discriminate.
Defined.

(** ** [establish], by the reply to its request *)

(** X5.  [establish] builds the connection with the tokens and the callback
    it is given and sends exactly one request, [GET /me] with the given
    access token.  When that request is answered by an HTTP 200,
    [onGettingUserProfile] is called once with the body, and [establish]
    succeeds if the callback returns and fails with what the callback throws
    otherwise; for any other answer it fails with what [fetchUserProfile]
    failed with and calls nothing.  In every case the connection still holds
    the tokens it was given. *)
Theorem establish_outcome (remote : Remote) (accessToken0 refreshToken0 : string)
  (onProfile onToken : Callback) :
  let request := profile_request (JsStr accessToken0) in
  let reply := remote [] request in
  let connection :=
    extend_trace (new_SpotifyConnection accessToken0 refreshToken0 onToken)
      [Exchange request reply] in
  establish remote accessToken0 refreshToken0 onProfile onToken =
  match profile_outcome reply with
  | Rejected e => (Normal (Rejected e), connection)
  | Fulfilled profile =>
      (Normal match onProfile profile with
              | None => Fulfilled tt
              | Some e => Rejected e
              end,
       extend_trace connection [GettingUserProfile profile])
  end.
Proof.
  cbv zeta. unfold establish, async, bind.
  rewrite fetchUserProfile_spec.
  cbn [new_SpotifyConnection _accessToken trace refreshToken].
  destruct (profile_outcome _) as [profile | e]; cbn [await ret throw];
    [ | reflexivity ].
  unfold invoke, bind, log.
  destruct (onProfile profile); reflexivity.
Qed.
